(** * sql_dependency_graph: the graph core (graph.py)

    A shallow embedding of [sql_dependency_graph/graph.py] and the proofs of
    its specified properties.

    Conventions of the embedding.
    - A Python [str] is a [string]; the text algorithms run on its sequence of
      characters ([chars], a [list ascii]).  A character is a code point
      below 256, and the character classes of [re] ([\s], [\b], [(?i)]) are
      those of Python's Unicode tables restricted to that range.
    - [set] is [gset], [dict] is [gmap]; a [dict] whose insertion order shows
      in the behaviour ([path_lookup]) is an association list.
    - [set.pop()] removes an arbitrary element: the traversal loop is a step
      relation, and an executable instance pops the first of [elements].
    - Exceptions and the file system are explicit: an [outcome] and a log of
      the input/output performed. *)

From stdpp Require Import gmap strings list fin_maps relations pretty.
From Stdlib Require Import Ascii.
From Stdlib Require String.

(** * The embedding *)

(** ** Python strings *)

Module PyStr.

Definition chars : string → list ascii := String.list_ascii_of_string.
Definition text : list ascii → string := String.string_of_list_ascii.

(** The two delimiters of the dependency pattern. *)
Definition dquote : ascii := "034"%char.
Definition backtick : ascii := "`"%char.
Definition newline : ascii := "010"%char.

Definition code (c : ascii) : nat := nat_of_ascii c.

Definition between (lo hi n : nat) : bool := (lo <=? n) && (n <=? hi).

(** [str.isspace] on one character. *)
Definition isspace (c : ascii) : bool :=
  let n := code c in
  between 9 13 n || between 28 32 n || (n =? 133) || (n =? 160).

(** [str.isalnum] on one character. *)
Definition isalnum (c : ascii) : bool :=
  let n := code c in
  between 48 57 n || between 65 90 n || between 97 122 n
  || (n =? 170) || (n =? 178) || (n =? 179) || (n =? 181)
  || (n =? 185) || (n =? 186) || between 188 190 n
  || between 192 214 n || between 216 246 n || between 248 255 n.

(** The word characters of [\w] and [\b]. *)
Definition isword (c : ascii) : bool := isalnum c || (code c =? 95).

(** Lower-casing of one character, as [(?i)] applies it. *)
Definition lower (c : ascii) : ascii :=
  let n := code c in
  if between 65 90 n || (between 192 222 n && negb (n =? 215))
  then ascii_of_nat (n + 32) else c.

(** [s.startswith(p)] on character sequences. *)
Fixpoint startswith (p s : list ascii) : bool :=
  match p, s with
  | [], _ => true
  | a :: p', b :: s' => bool_decide (a = b) && startswith p' s'
  | _ :: _, [] => false
  end.

(** [s.replace(old, new)]: the occurrences of [old] are found from the left
    and do not overlap.  [skip] counts the characters of an occurrence that
    are still to be dropped. *)
Fixpoint replace_from (skip : nat) (old new s : list ascii) : list ascii :=
  match s with
  | [] => []
  | c :: s' =>
      match skip with
      | S n => replace_from n old new s'
      | O =>
          if startswith old s
          then new ++ replace_from (length old - 1) old new s'
          else c :: replace_from 0 old new s'
      end
  end.

(** With an empty [old], Python puts [new] before every character and at
    the end. *)
Definition replace (old new s : list ascii) : list ascii :=
  match old with
  | [] => new ++ flat_map (λ c, c :: new) s
  | _ :: _ => replace_from 0 old new s
  end.

(** [s.split(sep)] for a one-character separator. *)
Fixpoint split (sep : ascii) (s : list ascii) : list (list ascii) :=
  match s with
  | [] => [[]]
  | c :: s' =>
      if bool_decide (c = sep) then [] :: split sep s'
      else match split sep s' with
           | w :: ws => (c :: w) :: ws
           | [] => [[c]]
           end
  end.

(** [sep.join(parts)]. *)
Fixpoint join (sep : list ascii) (parts : list (list ascii)) : list ascii :=
  match parts with
  | [] => []
  | [w] => w
  | w :: ws => w ++ sep ++ join sep ws
  end.

End PyStr.

(** ** Regular expressions: the fragment of [re] that graph.py uses *)

Module Re.
Import PyStr.

(** What matches one character. *)
Inductive cclass : Type :=
| CLiteral (c : ascii)          (* a character, case-sensitively *)
| CLiteralIgnore (c : ascii)    (* a character under the flag (?i) *)
| CAny                          (* .    anything but a newline *)
| CIn (cs : list ascii)         (* [..] one of the listed characters *)
| CSpace.                       (* \s *)

Inductive regex : Type :=
| RChar (c : cclass)
| RBoundary                                    (* \b *)
| REmpty
| RSeq (r1 r2 : regex)
| RAlt (r1 r2 : regex)                         (* r1|r2, r1 tried first *)
| RRepeat (greedy : bool) (min : nat) (c : cclass)
                                               (* c* c+ (greedy), c*? c+? *)
| RGroup (r : regex).                          (* ( r ), the one group *)

Definition class_matches (c : cclass) (ch : ascii) : bool :=
  match c with
  | CLiteral x => bool_decide (ch = x)
  | CLiteralIgnore x => bool_decide (lower ch = lower x)
  | CAny => negb (bool_decide (ch = newline))
  | CIn cs => bool_decide (ch ∈ cs)
  | CSpace => isspace ch
  end.

(** The matcher's cursor: the character before it (none at the start of the
    text), the text ahead of it, and what the group has captured. *)
Record mstate : Type := MState {
  prev : option ascii;
  rest : list ascii;
  group : option (list ascii)
}.

Definition start (p : option ascii) (s : list ascii) : mstate :=
  MState p s None.

Definition word_before (p : option ascii) : bool :=
  match p with Some c => isword c | None => false end.
Definition word_ahead (s : list ascii) : bool :=
  match s with c :: _ => isword c | [] => false end.

(** [\b]: exactly one side of the cursor is a word character. *)
Definition at_boundary (p : option ascii) (s : list ascii) : bool :=
  xorb (word_before p) (word_ahead s).

(** The text between two cursors, the second reached from the first. *)
Definition consumed (st st' : mstate) : list ascii :=
  take (length (rest st) - length (rest st')) (rest st).

Definition capture (st st' : mstate) : mstate :=
  MState (prev st') (rest st') (Some (consumed st st')).

Section Repeat.
Context {A : Type}.

(** Greedy repetition: take one more character when possible, and fall
    back to stopping here when the rest of the pattern fails. *)
Fixpoint repeat_greedy (c : cclass) (min : nat) (p : option ascii)
    (s : list ascii) (k : option ascii → list ascii → option A)
    : option A :=
  let stop := match min with O => k p s | S _ => None end in
  match s with
  | ch :: s' =>
      if class_matches c ch then
        match repeat_greedy c (pred min) (Some ch) s' k with
        | Some x => Some x
        | None => stop
        end
      else stop
  | [] => stop
  end.

(** Lazy repetition: stop as soon as the rest of the pattern matches. *)
Fixpoint repeat_lazy (c : cclass) (min : nat) (p : option ascii)
    (s : list ascii) (k : option ascii → list ascii → option A)
    {struct s} : option A :=
  let more :=
    match s with
    | ch :: s' =>
        if class_matches c ch
        then repeat_lazy c (pred min) (Some ch) s' k
        else None
    | [] => None
    end in
  match min with
  | O => match k p s with Some x => Some x | None => more end
  | S _ => more
  end.
End Repeat.

(** The backtracking matcher, in continuation-passing style: [k] is the
    rest of the pattern, and alternatives are tried in order. *)
Fixpoint re_match (r : regex) (st : mstate)
    (k : mstate → option mstate) : option mstate :=
  match r with
  | RChar c =>
      match rest st with
      | ch :: s' =>
          if class_matches c ch then k (MState (Some ch) s' (group st))
          else None
      | [] => None
      end
  | RBoundary => if at_boundary (prev st) (rest st) then k st else None
  | REmpty => k st
  | RSeq r1 r2 => re_match r1 st (λ st1, re_match r2 st1 k)
  | RAlt r1 r2 =>
      match re_match r1 st k with
      | Some x => Some x
      | None => re_match r2 st k
      end
  | RRepeat greedy min c =>
      (if greedy then repeat_greedy else repeat_lazy) c min
        (prev st) (rest st) (λ p s, k (MState p s (group st)))
  | RGroup r1 => re_match r1 st (λ st1, k (capture st st1))
  end.

(** A match of [r] that starts at the cursor. *)
Definition match_here (r : regex) (p : option ascii) (s : list ascii)
    : option mstate :=
  re_match r (start p s) Some.

(** What [findall] lists for a match of a pattern with one group. *)
Definition group_text (st : mstate) : list ascii := default [] (group st).

(** [re.findall]: the matches are found from the left and do not overlap.
    [skip] counts the characters of the last match that the scan has still
    to pass.  (Exact for patterns that cannot match the empty text, which
    holds of the two patterns of graph.py.) *)
Fixpoint findall_from (r : regex) (skip : nat) (p : option ascii)
    (s : list ascii) : list (list ascii) :=
  match skip with
  | S n =>
      match s with
      | [] => []
      | ch :: s' => findall_from r n (Some ch) s'
      end
  | O =>
      match match_here r p s with
      | Some st' =>
          group_text st' ::
          match s with
          | [] => []
          | ch :: s' =>
              findall_from r (length s - length (rest st') - 1) (Some ch) s'
          end
      | None =>
          match s with
          | [] => []
          | ch :: s' => findall_from r 0 (Some ch) s'
          end
      end
  end.

Definition findall (r : regex) (s : list ascii) : list (list ascii) :=
  findall_from r 0 None s.

(** A word, each letter matched under (?i). *)
Definition word_ignore_case (w : list ascii) : regex :=
  foldr (λ c r, RSeq (RChar (CLiteralIgnore c)) r) REmpty w.

Definition alternatives (rs : list regex) : regex :=
  match rs with
  | [] => REmpty
  | r :: rs' => foldl RAlt r rs'
  end.

End Re.

(** ** graph.py: the extractor *)

Import PyStr Re.

Abbreviation Artifact := string (only parsing).
Abbreviation DependencyGraph := (gmap string (list string)) (only parsing).

Definition keywords : list string :=
  ["FROM"; "TABLE"; "INTO"; "JOIN"; "UPDATE"; "DELETE"].

Definition delimiters : list ascii := [backtick; dquote].

(** The pattern of [_get_dependencies], under the flag for ignoring case: a
    word boundary, one of the six keywords, whitespace (once or more, greedy),
    a delimiter (backtick or double quote), the group (any characters, lazy)
    and a delimiter again. *)
Definition dependency_regex : regex :=
  RSeq RBoundary
    (RSeq (alternatives (word_ignore_case ∘ chars <$> keywords))
      (RSeq (RRepeat true 1 CSpace)
        (RSeq (RChar (CIn delimiters))
          (RSeq (RGroup (RRepeat false 0 CAny))
            (RChar (CIn delimiters)))))).

(** [list(set(re.findall(dependency_regex, sql)))] *)
Definition _get_dependencies (sql : string) : list Artifact :=
  elements (list_to_set (text <$> findall dependency_regex (chars sql))
            : gset string).

Definition DQ : string := String dquote EmptyString.

(** ** pathlib: [str(Path(s))] on a POSIX system *)

Module PathLib.
Import PyStr.

Definition slash : ascii := "/"%char.
Definition dot : ascii := "."%char.

(** [s.lstrip] of slashes *)
Fixpoint lstrip_slashes (s : list ascii) : list ascii :=
  match s with
  | c :: s' => if bool_decide (c = slash) then lstrip_slashes s' else s
  | [] => []
  end.

(** The root of a path and what follows it: exactly two leading slashes are
    kept as they are, any other number of them is one slash. *)
Definition splitroot (part : list ascii) : list ascii * list ascii :=
  match part with
  | c :: _ =>
      if bool_decide (c = slash) then
        let stripped := lstrip_slashes part in
        if length part - length stripped =? 2
        then ([slash; slash], stripped) else ([slash], stripped)
      else ([], part)
  | [] => ([], [])
  end.

(** The components of a path: empty ones and single dots are dropped. *)
Definition is_component (x : list ascii) : bool :=
  negb (bool_decide (x = [])) && negb (bool_decide (x = [dot])).

Definition components (rel : list ascii) : list (list ascii) :=
  filter (λ x, is_component x = true) (split slash rel).

(** [str(Path(s))]: the root, the components joined by slashes, and a dot
    for the empty path. *)
Definition Path_str (s : list ascii) : list ascii :=
  let '(root, rel) := splitroot s in
  match root ++ join [slash] (components rel) with
  | [] => [dot]
  | p => p
  end.

End PathLib.

(** ** graph.py: errors and the resolver *)

Import PathLib.

Inductive exn : Type :=
| AssertionError (msg : string)
| NotImplementedError (msg : string)
| KeyError (key : string)
| OSError (path : string).

(** What a call does: it returns, it raises, or it leaves the embedded
    fragment of [re] (a scan directory whose name holds pattern syntax other
    than the dot). *)
Inductive outcome (A : Type) : Type :=
| Returned (a : A)
| Raised (e : exn)
| Unmodelled.
Arguments Returned {A} a.
Arguments Raised {A} e.
Arguments Unmodelled {A}.

(** The characters that [re] reads as syntax and the embedding leaves out. *)
Definition pattern_syntax : list ascii :=
  chars "\^$*+?{}[]|()".

(** The scan directory read as a pattern: every character stands for itself,
    except the dot, which stands for any character but a newline. *)
Fixpoint literal_pattern (d : list ascii) : option regex :=
  match d with
  | [] => Some REmpty
  | c :: d' =>
      if bool_decide (c ∈ pattern_syntax) then None
      else
        match literal_pattern d' with
        | Some r =>
            Some (RSeq (RChar (if bool_decide (c = dot) then CAny
                               else CLiteral c)) r)
        | None => None
        end
  end.

(** The pattern of [_convert_path_to_artifact]: the scan directory, a slash
    and the group (any characters, greedy). *)
Definition path_regex (sql_dir : list ascii) : option regex :=
  match literal_pattern sql_dir with
  | Some r =>
      Some (RSeq r (RSeq (RChar (CLiteral slash))
                         (RGroup (RRepeat true 0 CAny))))
  | None => None
  end.

Definition path_not_found : string :=
  "Check your `artifact_path` and `sql_dir`, not finding the `artifact_path`.".

Definition strip_markers (p : list ascii) : list ascii :=
  replace (chars ".sql") [] (replace (chars ".table") [] (replace [slash] [dot] p)).

(** The directory string goes into the pattern as it is.  A directory
    whose name holds pattern syntax other than dots is outside the embedded
    fragment of [re]: the outcome is [Unmodelled], and what is proved of
    the artifacts that the resolver returns is stated for the other
    directories only. *)
Definition _convert_path_to_artifact (sql_dir artifact_path : string)
    : outcome Artifact :=
  let sql_dir := Path_str (chars sql_dir) in
  let artifact_path := Path_str (chars artifact_path) in
  match path_regex sql_dir with
  | None => Unmodelled
  | Some r =>
      match findall r artifact_path with
      | [] => Raised (AssertionError path_not_found)
      | p0 :: _ => Returned (text (strip_markers p0))
      end
  end.

(** *** The file system and the log of input/output *)

Record filesystem : Type := FileSystem {
  rglob_sql : string → list string;   (* the .sql files that rglob lists *)
  read_text : string → option string  (* open and read; None: it fails *)
}.

Inductive io_event : Type :=
| IoRglob (dir : string)
| IoOpen (path : string).

(** A computation that may raise and that logs its input/output. *)
Definition io (A : Type) : Type := list io_event → outcome A * list io_event.

Definition ret {A} (a : A) : io A := λ log, (Returned a, log).
Definition raise {A} (e : exn) : io A := λ log, (Raised e, log).
Definition lift {A} (o : outcome A) : io A := λ log, (o, log).
Definition bind {A B} (m : io A) (f : A → io B) : io B :=
  λ log,
    match m log with
    | (Returned a, log') => f a log'
    | (Raised e, log') => (Raised e, log')
    | (Unmodelled, log') => (Unmodelled, log')
    end.

Declare Scope io_scope.
Delimit Scope io_scope with io.
Notation "'let*' x ':=' m 'in' f" := (bind m (λ x, f))
  (at level 10, x name, m at level 100, f at level 200) : io_scope.

Definition do_rglob (fs : filesystem) (dir : string) : io (list string) :=
  λ log, (Returned (rglob_sql fs dir), log ++ [IoRglob dir]).

Definition do_read (fs : filesystem) (path : string) : io string :=
  λ log,
    (match read_text fs path with
     | Some sql => Returned sql
     | None => Raised (OSError path)
     end, log ++ [IoOpen path]).

(** A [dict] that keeps the order of insertion: assigning to a key that is
    present replaces its value in place. *)
Fixpoint dict_set {V} (k : string) (v : V) (d : list (string * V))
    : list (string * V) :=
  match d with
  | [] => [(k, v)]
  | (k', v') :: d' =>
      if decide (k' = k) then (k, v) :: d' else (k', v') :: dict_set k v d'
  end.

Fixpoint dict_get {V} (k : string) (d : list (string * V)) : option V :=
  match d with
  | [] => None
  | (k', v') :: d' => if decide (k' = k) then Some v' else dict_get k d'
  end.

Local Open Scope io_scope.

(** The comprehension of [_get_path_lookup]. *)
Fixpoint path_lookup_of (sql_dir : string) (sql_paths : list string)
    (acc : list (string * string)) : outcome (list (string * string)) :=
  match sql_paths with
  | [] => Returned acc
  | sql_path :: more =>
      match _convert_path_to_artifact sql_dir sql_path with
      | Returned a => path_lookup_of sql_dir more (dict_set a sql_path acc)
      | Raised e => Raised e
      | Unmodelled => Unmodelled
      end
  end.

Definition _get_path_lookup (fs : filesystem) (sql_dir : string)
    : io (list (string * string)) :=
  let* sql_paths := do_rglob fs (text (Path_str (chars sql_dir))) in
  lift (path_lookup_of sql_dir sql_paths []).

(** [dependency_graph[dependency].append(artifact)] on a [defaultdict(list)] *)
Definition append_to (g : DependencyGraph) (dependency artifact : string)
    : DependencyGraph :=
  <[dependency := default [] (g !! dependency) ++ [artifact]]> g.

Definition _create_dependency_graph_helper (artifact : Artifact)
    (dependencies : list Artifact) (dependency_graph : DependencyGraph)
    (relationship : string) : outcome DependencyGraph :=
  if decide (relationship = "parent") then
    Returned (foldl (λ g dependency, append_to g dependency artifact)
                    dependency_graph dependencies)
  else if decide (relationship = "dependency") then
    Returned (<[artifact := dependencies]> dependency_graph)
  else Raised (NotImplementedError EmptyString).

(** *** The subgraph traversal *)

Record traversal : Type := Traversal {
  lookup_artifacts : gset string;
  subgraph_artifacts : list string;
  visited : gset string
}.

Definition initial (root_artifact : Artifact) : traversal :=
  Traversal {[root_artifact]} [root_artifact] ∅.

(** The body of the loop, for the artifact [x] that [pop] has returned. *)
Definition visit (g : DependencyGraph) (x : string) (t : traversal)
    : traversal :=
  let frontier := lookup_artifacts t ∖ {[x]} in
  match g !! x with
  | Some deps =>
      Traversal (frontier ∪ (list_to_set deps ∖ visited t))
                (subgraph_artifacts t ++ deps)
                (visited t ∪ {[x]})
  | None =>
      Traversal frontier (subgraph_artifacts t ++ [x]) (visited t ∪ {[x]})
  end.

(** [run g t xs t']: the loop goes from [t] to [t'] and pops the artifacts
    [xs] in this order; each is some element of the frontier. *)
Inductive run (g : DependencyGraph) : traversal → list string → traversal → Prop :=
| run_done t : run g t [] t
| run_pop t x xs t' :
    x ∈ lookup_artifacts t → run g (visit g x t) xs t' → run g t (x :: xs) t'.

(** The comprehension that builds [dependency_dict]. *)
Definition dependency_dict (g : DependencyGraph) (artifacts : list string)
    : DependencyGraph :=
  foldl (λ d a, match g !! a with Some deps => <[a := deps]> d | None => d end)
        ∅ artifacts.

(** [out] is a result of [_create_dependency_subgraph g root_artifact], for
    some order in which [pop] empties the frontier. *)
Definition subgraph_result (g : DependencyGraph) (root_artifact : Artifact)
    (out : DependencyGraph) : Prop :=
  ∃ xs t, run g (initial root_artifact) xs t ∧ lookup_artifacts t = ∅ ∧
          out = dependency_dict g (subgraph_artifacts t).

(** An executable instance: [pop] returns the first of [elements]. *)
Definition pop (s : gset string) : option string := head (elements s).

Fixpoint traverse (fuel : nat) (g : DependencyGraph) (t : traversal)
    : option traversal :=
  match pop (lookup_artifacts t) with
  | None => Some t
  | Some x =>
      match fuel with
      | O => None
      | S n => traverse n g (visit g x t)
      end
  end.

(** Every artifact the traversal can meet: the root and the listed values. *)
Definition universe (g : DependencyGraph) (root_artifact : Artifact)
    : gset string :=
  map_fold (λ _ deps acc, list_to_set deps ∪ acc) {[root_artifact]} g.

Definition _create_dependency_subgraph (dependency_graph : DependencyGraph)
    (root_artifact : Artifact) : DependencyGraph :=
  match traverse (2 * size (universe dependency_graph root_artifact))
                 dependency_graph (initial root_artifact) with
  | Some t => dependency_dict dependency_graph (subgraph_artifacts t)
  | None => ∅
  end.

(** *** The Graph Builder *)

Definition bad_relationship : string :=
  "`relationship` must be in {" +:+ DQ +:+ "parent" +:+ DQ +:+ ", "
  +:+ DQ +:+ "dependency" +:+ DQ +:+ "}".
Definition root_required : string :=
  "Must pass a `root_artifact` for the parent relationship.".

(** Python's truth value of an [Optional[str]]. *)
Definition truthy (root_artifact : option Artifact) : bool :=
  match root_artifact with
  | Some s => negb (bool_decide (s = EmptyString))
  | None => false
  end.

(** The loop over the artifacts of [create_dependency_graph]. *)
Fixpoint build (fs : filesystem) (path_lookup : list (string * string))
    (relationship : string) (artifacts : list Artifact)
    (dependency_graph : DependencyGraph) : io DependencyGraph :=
  match artifacts with
  | [] => ret dependency_graph
  | artifact :: more =>
      let* path := lift (match dict_get artifact path_lookup with
                         | Some p => Returned p
                         | None => Raised (KeyError artifact)
                         end) in
      let* sql := do_read fs path in
      let* g := lift (_create_dependency_graph_helper
                        artifact (_get_dependencies sql) dependency_graph
                        relationship) in
      build fs path_lookup relationship more g
  end.

Definition create_dependency_graph (fs : filesystem) (sql_dir : string)
    (relationship : string) (root_artifact : option Artifact)
    : io DependencyGraph :=
  if negb (bool_decide (relationship ∈ ["parent"; "dependency"])) then
    raise (AssertionError bad_relationship)
  else if bool_decide (relationship = "parent") && negb (truthy root_artifact) then
    raise (NotImplementedError root_required)
  else
    let* path_lookup := _get_path_lookup fs sql_dir in
    let* dependency_graph :=
      build fs path_lookup relationship path_lookup.*1 ∅ in
    match root_artifact with
    | Some root =>
        if truthy root_artifact
        then ret (_create_dependency_subgraph dependency_graph root)
        else ret dependency_graph
    | None => ret dependency_graph
    end.

(** The directory of the test suite. *)
Definition test_data : filesystem :=
  FileSystem
    (λ dir, if decide (dir = "tests/.test_data") then
              ["tests/.test_data/master_views/customer.sql";
               "tests/.test_data/master_views/package.sql";
               "tests/.test_data/master_tables/package.table.sql";
               "tests/.test_data/master_tables/customer.table.sql"]
            else [])
    (λ path,
       if decide (path = "tests/.test_data/master_views/customer.sql") then
         Some "select * from `master_tables.subscription` s
               join `master_tables.package` p on s.id = p.id"
       else if decide (path = "tests/.test_data/master_views/package.sql") then
         Some "select * from `nexgen_liveprod.test`"
       else if decide (path = "tests/.test_data/master_tables/package.table.sql") then
         Some "id int"
       else if decide (path = "tests/.test_data/master_tables/customer.table.sql") then
         Some "id int"
       else None).

(** * Specifications *)

(** ** Matches of a pattern, read as a relation *)

(** The character before the cursor once [w] has been read. *)
Definition prev_after (p : option ascii) (w : list ascii) : option ascii :=
  match last w with Some c => Some c | None => p end.

(** [matches r st st']: read as a relation, [r] takes the cursor from [st]
    to [st']. *)
Fixpoint matches (r : regex) (st st' : mstate) : Prop :=
  match r with
  | RChar c =>
      ∃ ch, rest st = ch :: rest st' ∧ class_matches c ch = true ∧
            prev st' = Some ch ∧ group st' = group st
  | RBoundary => at_boundary (prev st) (rest st) = true ∧ st' = st
  | REmpty => st' = st
  | RSeq r1 r2 => ∃ st1, matches r1 st st1 ∧ matches r2 st1 st'
  | RAlt r1 r2 => matches r1 st st' ∨ matches r2 st st'
  | RRepeat _ min c =>
      ∃ w, rest st = w ++ rest st' ∧
           Forall (λ ch, class_matches c ch = true) w ∧
           min ≤ length w ∧
           prev st' = prev_after (prev st) w ∧ group st' = group st
  | RGroup r1 => ∃ st1, matches r1 st st1 ∧ st' = capture st st1
  end.

(** [kw] is one of the six keywords, in any mix of upper and lower case. *)
Definition keyword_like (kw : list ascii) : Prop :=
  ∃ k, k ∈ keywords ∧ lower <$> kw = lower <$> chars k.

(** The shape of the text at a match of the dependency pattern. *)
Inductive reference (p : option ascii) (s d : list ascii) : Prop :=
| Reference (kw ws : list ascii) (q1 q2 : ascii) (post : list ascii) :
    s = kw ++ ws ++ q1 :: d ++ q2 :: post →
    word_before p = false →
    keyword_like kw →
    ws ≠ [] → Forall (λ c, isspace c = true) ws →
    q1 ∈ delimiters → q2 ∈ delimiters →
    newline ∉ d →
    reference p s d.

(** The claim's reading of an element of the result: somewhere in the text
    stands a keyword as a whole word, whitespace, and the element between
    two delimiters. *)
Definition referenced_in (sql d : list ascii) : Prop :=
  ∃ pre s, sql = pre ++ s ∧ reference (last pre) s d.

(** ** Reachability and the traversal *)

(** [edge g x y]: [y] is listed among the values of the key [x]. *)
Definition edge (g : DependencyGraph) (x y : string) : Prop :=
  ∃ deps, g !! x = Some deps ∧ y ∈ deps.

(** The artifacts reachable from the root along the edges of [g]. *)
Definition reachable (g : DependencyGraph) (root_artifact : Artifact)
    (a : string) : Prop :=
  rtc (edge g) root_artifact a.

(** [t] is a state in which the loop ends, for some order of the pops. *)
Definition traversal_ends (g : DependencyGraph) (root_artifact : Artifact)
    (t : traversal) : Prop :=
  ∃ xs, run g (initial root_artifact) xs t ∧ lookup_artifacts t = ∅.

(** Replaying a list of pops: [None] when one of them is not in the
    frontier. *)
Fixpoint replay (g : DependencyGraph) (t : traversal) (xs : list string)
    : option traversal :=
  match xs with
  | [] => Some t
  | x :: xs' =>
      if decide (x ∈ lookup_artifacts t) then replay g (visit g x t) xs'
      else None
  end.

(** What every state of the loop satisfies. *)
Record traversal_inv (g : DependencyGraph) (root : Artifact) (t : traversal)
    : Prop := TraversalInv {
  inv_artifacts : ∀ a,
    a ∈ subgraph_artifacts t ↔ a ∈ lookup_artifacts t ∨ a ∈ visited t;
  inv_root : root ∈ subgraph_artifacts t;
  inv_reachable : ∀ a, a ∈ subgraph_artifacts t → reachable g root a;
  inv_closed : ∀ x y, x ∈ visited t → edge g x y →
    y ∈ lookup_artifacts t ∨ y ∈ visited t
}.

(** *** Counting the iterations of the loop *)

(** How often [a] is popped in a run. *)
Definition pops_of (a : string) (xs : list string) : nat :=
  length (filter (λ x, x = a) xs).

(** [n] pops of [a] so far are consistent with the state [t]: an artifact is
    popped for the first time when it is not yet visited, and afterwards it
    is in the frontier once more only when it is one of its own values. *)
Definition pops_inv (g : DependencyGraph) (t : traversal) (a : string)
    (n : nat) : Prop :=
  if decide (a ∈ visited t) then
    if decide (a ∈ lookup_artifacts t) then n = 1 ∧ edge g a a
    else 1 ≤ n ≤ 2 ∧ (n = 2 → edge g a a)
  else n = 0.

(** The length of a run against the size of the visited set. *)
Definition length_inv (t : traversal) (n : nat) : Prop :=
  n + size (lookup_artifacts t ∩ visited t) ≤ 2 * size (visited t).

(** ** The graphs of the examples *)

Definition cyclic_graph : DependencyGraph :=
  {[ "a" := ["b"; "c"]; "b" := ["a"]; "d" := ["a"] ]}.

Definition cyclic_end : traversal :=
  Eval vm_compute in
    default (initial "a") (traverse 8 cyclic_graph (initial "a")).

Definition self_loop : DependencyGraph := {[ "a" := ["a"] ]}.

(** C8 as the specification states it: no artifact is popped twice. *)
Definition popped_at_most_once (g : DependencyGraph) (root : Artifact) : Prop :=
  ∀ xs t, run g (initial root) xs t → ∀ a, pops_of a xs ≤ 1.

(** The artifacts that the builder discovers under a scan directory, each
    with the path of its file. *)
Definition discovered (fs : filesystem) (sql_dir : string)
    (path_lookup : list (string * string)) : Prop :=
  path_lookup_of sql_dir (rglob_sql fs (text (Path_str (chars sql_dir)))) []
  = Returned path_lookup.

Definition test_data_dependencies : DependencyGraph :=
  {[ "master_views.customer" :=
       ["master_tables.subscription"; "master_tables.package"];
     "master_views.package" := ["nexgen_liveprod.test"];
     "master_tables.package" := [];
     "master_tables.customer" := [] ]}.

Definition test_data_log : list io_event :=
  [IoRglob "tests/.test_data";
   IoOpen "tests/.test_data/master_views/customer.sql";
   IoOpen "tests/.test_data/master_views/package.sql";
   IoOpen "tests/.test_data/master_tables/package.table.sql";
   IoOpen "tests/.test_data/master_tables/customer.table.sql"].

(** C1 as the specification states it: the element stands between two equal
    delimiters. *)
Definition same_delimiters (sql d : list ascii) : Prop :=
  ∃ pre q post, q ∈ delimiters ∧ sql = pre ++ q :: d ++ q :: post.

Definition mixed_delimiters : string := "FROM " +:+ DQ +:+ "a`".

Definition empty_identifier : string := "FROM " +:+ DQ +:+ DQ.

(** ** The Artifact Identifier Resolver *)

(** [artifact_path] lies under [sql_dir], as pathlib reads the two paths:
    they have the same root, and the components of the path are those of
    the directory and at least one more.  So every relative path lies under
    the current directory, whose path has no component. *)
Definition located_under (sql_dir artifact_path : string) : Prop :=
  (splitroot (chars artifact_path)).1 = (splitroot (chars sql_dir)).1 ∧
  ∃ rel, rel ≠ [] ∧
    components (splitroot (chars artifact_path)).2
    = components (splitroot (chars sql_dir)).2 ++ rel.

(** [m] is a text that the directory [d] matches when it is read as a
    pattern: a dot of [d] stands for any character but a newline. *)
Definition matches_dir (d m : list ascii) : Prop :=
  Forall2 (λ c ch, if bool_decide (c = dot) then ch ≠ newline else ch = c) d m.

(** Somewhere in the path stands a text that the directory matches, and a
    slash after it. *)
Definition dir_occurs (sql_dir artifact_path : string) : Prop :=
  ∃ pre m rel,
    Path_str (chars artifact_path) = pre ++ m ++ slash :: rel ∧
    matches_dir (Path_str (chars sql_dir)) m.

(** The name of the directory holds no pattern syntax but dots. *)
Definition plain_dir (sql_dir : string) : Prop :=
  Forall (λ c, c ∉ pattern_syntax) (Path_str (chars sql_dir)).

(** C3 as the specification states it: the error is raised exactly for the
    paths that do not lie under the scan directory. *)
Definition raises_exactly_outside (sql_dir artifact_path : string) : Prop :=
  (∃ e, _convert_path_to_artifact sql_dir artifact_path = Raised e)
  ↔ ¬ located_under sql_dir artifact_path.

(** *** Resolving a rebuilt path *)

(** [old in s] *)
Fixpoint contains (old s : list ascii) : bool :=
  startswith old s ||
  match s with
  | [] => false
  | _ :: s' => contains old s'
  end.

(** The path rebuilt from a scan directory and an artifact, in the words of
    the specification: the dots of the artifact become slashes, and the
    extension is appended. *)
Definition reconstruct (sql_dir : string) (a : Artifact) : string :=
  sql_dir +:+ "/" +:+ text (replace [dot] [slash] (chars a)) +:+ ".sql".

Definition swap (c d : ascii) (x : ascii) : ascii :=
  if bool_decide (x = c) then d else x.

(** C2 as the specification states it: for a path that resolves to an
    artifact, the path rebuilt from the artifact resolves to it again. *)
Definition round_trip (sql_dir artifact_path : string) : Prop :=
  ∀ a, _convert_path_to_artifact sql_dir artifact_path = Returned a →
       _convert_path_to_artifact sql_dir (reconstruct sql_dir a) = Returned a.

(** ** The builder, file by file *)

Global Instance exn_eq_dec : EqDecision exn.
Proof. solve_decision. Defined.

Global Instance outcome_eq_dec {A} `{EqDecision A} : EqDecision (outcome A).
Proof. solve_decision. Defined.

(** The dependencies that the builder extracts for an artifact: those of
    the text of its file; none when the artifact has no file or the file
    cannot be read. *)
Definition dependencies_of (fs : filesystem)
    (path_lookup : list (string * string)) (A : Artifact) : list Artifact :=
  match dict_get A path_lookup with
  | Some path =>
      match read_text fs path with
      | Some sql => _get_dependencies sql
      | None => []
      end
  | None => []
  end.

(** The values of a key, none when the key is absent. *)
Definition values_of (g : DependencyGraph) (k : string) : list string :=
  default [] (g !! k).

(** The test directory with one more file, which cannot be read. *)
Definition unreadable_data : filesystem :=
  FileSystem
    (λ dir, rglob_sql test_data dir ++ ["tests/.test_data/locked/x.sql"])
    (read_text test_data).


(** * The embedding of viz.py *)

Module Viz.

(** [ArtifactType], a dictionary with four string fields. *)
Record ArtifactType : Type := {
  name : string;
  pattern : string;
  color : string;
  shape : string
}.

(** ** [_validate_graph_config] *)

(** What [yaml.safe_load] gives, as far as the validation tells values
    apart: strings, lists, dictionaries and everything else (null,
    booleans, numbers, dates, sets).  A dictionary is kept as its entries
    with string keys, looked up with [dict_get]; the validation asks for
    string keys only. *)
#[warnings="-register-all"] Inductive yaml : Type :=
| YStr (s : string)
| YList (items : list yaml)
| YDict (entries : list (string * yaml))
| YOther.

Inductive config_exn : Type :=
| ValueError (message : string)
| TypeError (message : string).

Definition required_fields : list string :=
  ["name"; "pattern"; "color"; "shape"].

Definition missing_key : string :=
  "Missing key: 'artifact_types' in the configuration.".
Definition not_a_list : string := "'artifact_types' must be a list.".
Definition not_a_dictionary (idx : nat) : string :=
  "Artifact type at index " +:+ pretty idx +:+ " must be a dictionary.".
Definition missing_field (field : string) (idx : nat) : string :=
  "Missing field '" +:+ field +:+ "' in artifact type at index "
  +:+ pretty idx +:+ ".".
Definition not_a_string (field : string) (idx : nat) : string :=
  "Field '" +:+ field +:+ "' in artifact type at index "
  +:+ pretty idx +:+ " must be a string.".

(** The loop over the required fields: the first error, if any. *)
Fixpoint check_fields (artifact : list (string * yaml)) (idx : nat)
    (fields : list string) : option config_exn :=
  match fields with
  | [] => None
  | field :: more =>
      match dict_get field artifact with
      | None => Some (ValueError (missing_field field idx))
      | Some (YStr _) => check_fields artifact idx more
      | Some _ => Some (TypeError (not_a_string field idx))
      end
  end.

(** The body of the loop over the artifact types. *)
Definition check_artifact (idx : nat) (artifact : yaml) : option config_exn :=
  match artifact with
  | YDict entries => check_fields entries idx required_fields
  | _ => Some (TypeError (not_a_dictionary idx))
  end.

Fixpoint check_artifacts (idx : nat) (artifact_types : list yaml)
    : option config_exn :=
  match artifact_types with
  | [] => None
  | artifact :: more =>
      match check_artifact idx artifact with
      | Some e => Some e
      | None => check_artifacts (S idx) more
      end
  end.

(** [None]: the function returns; [Some e]: it raises [e].  The
    configuration is a dictionary, as its annotation says. *)
Definition _validate_graph_config (config : list (string * yaml))
    : option config_exn :=
  match dict_get "artifact_types" config with
  | None => Some (ValueError missing_key)
  | Some (YList artifact_types) => check_artifacts 0 artifact_types
  | Some _ => Some (TypeError not_a_list)
  end.

(** ** [_identify_artifact_type] *)

Section Identify.

(** [re.search(pattern, text, re.IGNORECASE)] as a truth value; [None]
    when [re] raises, the pattern being no regular expression. *)
Variable re_search : string → string → option bool.

(** The loop over the artifact types; [None] when a search raises. *)
Fixpoint first_match (artifact : string) (artifact_types : list ArtifactType)
    : option string :=
  match artifact_types with
  | [] => Some "other"
  | artifact_type :: more =>
      match re_search (pattern artifact_type) artifact with
      | None => None
      | Some true => Some (name artifact_type)
      | Some false => first_match artifact more
      end
  end.

Definition _identify_artifact_type (artifact : string)
    (root_artifact : option string) (artifact_types : list ArtifactType)
    : option string :=
  if bool_decide (root_artifact = Some artifact) then Some "root"
  else first_match artifact artifact_types.

(** ** [_get_unique_artifacts] *)

(** [list(set(dependencies) | set(dependency_graph.keys()))] *)
Definition _get_unique_artifacts (dependency_graph : DependencyGraph)
    : list Artifact :=
  elements (list_to_set (mjoin (map_to_list dependency_graph).*2)
            ∪ dom dependency_graph : gset string).

(** ** [_create_dependency_viz_elements] *)

(** The two kinds of dictionaries of the result: a node, with the keys id,
    label and artifact_type, and an edge, with the keys source and
    target. *)
Inductive viz_element : Type :=
| Node (id label artifact_type : string)
| Edge (source target : string).

(** The loop over the artifacts.  When the search of a pattern raises, the
    function starts the debugger; what happens then is left out. *)
Fixpoint viz_elements_of (dependency_graph : DependencyGraph)
    (artifact_types : list ArtifactType) (root_artifact : option Artifact)
    (artifacts : list Artifact) : outcome (list viz_element) :=
  match artifacts with
  | [] => Returned []
  | artifact :: more =>
      match _identify_artifact_type artifact root_artifact artifact_types with
      | None => Unmodelled
      | Some artifact_type =>
          match viz_elements_of dependency_graph artifact_types
                  root_artifact more with
          | Returned elems =>
              Returned (Node artifact artifact artifact_type
                        :: (Edge artifact
                              <$> default [] (dependency_graph !! artifact))
                        ++ elems)
          | other => other
          end
      end
  end.

Definition _create_dependency_viz_elements
    (dependency_graph : DependencyGraph) (artifact_types : list ArtifactType)
    (root_artifact : option Artifact) : outcome (list viz_element) :=
  viz_elements_of dependency_graph artifact_types root_artifact
    (_get_unique_artifacts dependency_graph).

End Identify.

End Viz.

(** ** Reading the elements and the configuration *)

(** The identifiers of the nodes, in the order of the elements. *)
Definition node_ids (elems : list Viz.viz_element) : list string :=
  omap (λ e, match e with Viz.Node id _ _ => Some id | _ => None end) elems.

(** An entry of the configuration read as an [ArtifactType]: a dictionary
    whose four fields are strings; other keys are ignored. *)
Definition as_string (v : option Viz.yaml) : option string :=
  match v with Some (Viz.YStr s) => Some s | _ => None end.

Definition as_artifact_type (v : Viz.yaml) : option Viz.ArtifactType :=
  match v with
  | Viz.YDict entries =>
      match as_string (dict_get "name" entries),
            as_string (dict_get "pattern" entries),
            as_string (dict_get "color" entries),
            as_string (dict_get "shape" entries) with
      | Some n, Some p, Some c, Some s => Some (Viz.Build_ArtifactType n p c s)
      | _, _, _, _ => None
      end
  | _ => None
  end.

(** [re.search] under the flag for ignoring case, for patterns without
    pattern syntax: the pattern occurs in the text, in any mix of upper and
    lower case. *)
Definition literal_search (pattern text : string) : option bool :=
  Some (contains (lower <$> chars pattern) (lower <$> chars text)).

Definition table_type : Viz.ArtifactType :=
  Viz.Build_ArtifactType "table" "master_tables" "#FF0000" "ellipse".

(** The parents of an artifact of the test suite, drawn. *)
Definition parents_of_package : DependencyGraph :=
  {[ "master_tables.package" := ["master_views.customer"] ]}.


(** * Proofs *)

(** ** The matcher against a declarative reading of the patterns *)

Lemma prev_after_nil p : prev_after p [] = p.
Proof. reflexivity. Qed.

Lemma prev_after_cons p ch w : prev_after p (ch :: w) = prev_after (Some ch) w.
Proof.
  unfold prev_after. destruct w as [|c w]; [done|].
  change (last (ch :: c :: w)) with (last (c :: w)).
  by destruct (last (c :: w)) eqn:E; [|apply last_None in E].
Qed.

Lemma prev_after_app p w1 w2 :
  prev_after p (w1 ++ w2) = prev_after (prev_after p w1) w2.
Proof.
  revert p. induction w1 as [|c w1 IH]; intros p; [done|].
  by rewrite <- app_comm_cons, !prev_after_cons.
Qed.

Lemma prev_after_None w : prev_after None w = last w.
Proof. unfold prev_after. by destruct (last w). Qed.

Section RepeatFacts.
Context {A : Type}.
Implicit Types k : option ascii → list ascii → option A.

Lemma repeat_greedy_sound c min p s k x :
  repeat_greedy c min p s k = Some x →
  ∃ w s', s = w ++ s' ∧ Forall (λ ch, class_matches c ch = true) w ∧
          min ≤ length w ∧ k (prev_after p w) s' = Some x.
Proof.
  revert min p. induction s as [|ch s IH]; intros min p; simpl.
  - destruct min; [|done]. intros Hk. exists [], []. by repeat split.
  - assert (Hstop : match min with O => k p (ch :: s) | S _ => None end = Some x →
              ∃ w s', ch :: s = w ++ s' ∧
                Forall (λ ch, class_matches c ch = true) w ∧
                min ≤ length w ∧ k (prev_after p w) s' = Some x).
    { destruct min; [|done]. intros Hk. exists [], (ch :: s). by repeat split. }
    destruct (class_matches c ch) eqn:Hc; [|done].
    destruct (repeat_greedy c (pred min) (Some ch) s k) as [y|] eqn:Hrec; [|done].
    intros [= ->]. destruct (IH _ _ Hrec) as (w & s' & -> & Hw & Hmin & Hk).
    exists (ch :: w), s'. rewrite prev_after_cons. repeat split; auto.
    simpl. lia.
Qed.

Lemma repeat_lazy_sound c min p s k x :
  repeat_lazy c min p s k = Some x →
  ∃ w s', s = w ++ s' ∧ Forall (λ ch, class_matches c ch = true) w ∧
          min ≤ length w ∧ k (prev_after p w) s' = Some x.
Proof.
  revert min p. induction s as [|ch s IH]; intros min p.
  - destruct min; simpl; [|done].
    destruct (k p []) eqn:Hk; [|done]. intros [= ->].
    exists [], []. by repeat split.
  - assert (Hmore : (if class_matches c ch
                     then repeat_lazy c (pred min) (Some ch) s k else None) = Some x →
              ∃ w s', ch :: s = w ++ s' ∧
                Forall (λ ch, class_matches c ch = true) w ∧
                min ≤ length w ∧ k (prev_after p w) s' = Some x).
    { destruct (class_matches c ch) eqn:Hc; [|done]. intros Hrec.
      destruct (IH _ _ Hrec) as (w & s' & -> & Hw & Hmin & Hk).
      exists (ch :: w), s'. rewrite prev_after_cons. repeat split; auto.
      simpl. lia. }
    destruct min; simpl; [|exact Hmore].
    destruct (k p (ch :: s)) eqn:Hk; [|exact Hmore].
    intros [= ->]. exists [], (ch :: s). by repeat split.
Qed.

Lemma repeat_greedy_complete c min p w s' k x :
  Forall (λ ch, class_matches c ch = true) w → min ≤ length w →
  k (prev_after p w) s' = Some x →
  is_Some (repeat_greedy c min p (w ++ s') k).
Proof.
  intros Hw. revert min p. induction Hw as [|ch w Hc Hw IH]; intros min p Hmin Hk.
  - simpl in Hmin. assert (min = 0) as -> by lia. rewrite prev_after_nil in Hk.
    destruct s' as [|ch s]; simpl; [by rewrite Hk|].
    destruct (class_matches c ch); [|by rewrite Hk].
    destruct (repeat_greedy c 0 (Some ch) s k); [done|by rewrite Hk].
  - rewrite prev_after_cons in Hk. simpl. rewrite Hc.
    destruct (IH (pred min) (Some ch)) as [y ->]; [simpl in Hmin; lia|done|done].
Qed.

Lemma repeat_lazy_complete c min p w s' k x :
  Forall (λ ch, class_matches c ch = true) w → min ≤ length w →
  k (prev_after p w) s' = Some x →
  is_Some (repeat_lazy c min p (w ++ s') k).
Proof.
  intros Hw. revert min p. induction Hw as [|ch w Hc Hw IH]; intros min p Hmin Hk.
  - simpl in Hmin. assert (min = 0) as -> by lia. rewrite prev_after_nil in Hk.
    destruct s'; simpl; by rewrite Hk.
  - rewrite prev_after_cons in Hk.
    specialize (IH (pred min) (Some ch)).
    destruct IH as [y Hy]; [simpl in Hmin; lia|done|].
    destruct min; simpl; rewrite Hc, ?Hy; [|done].
    by destruct (k p (ch :: w ++ s')).
Qed.
End RepeatFacts.

(** Soundness: a match found by the backtracking matcher is a match of the
    relation. *)
Lemma re_match_sound r st k x :
  re_match r st k = Some x → ∃ st', matches r st st' ∧ k st' = Some x.
Proof.
  revert st k x. induction r as [c| | |r1 IH1 r2 IH2|r1 IH1 r2 IH2|g min c|r1 IH1];
    intros st k x; simpl.
  - destruct (rest st) as [|ch s'] eqn:Hs; [done|].
    destruct (class_matches c ch) eqn:Hc; [|done]. intros Hk.
    exists (MState (Some ch) s' (group st)). split; [|done]. by exists ch.
  - destruct (at_boundary _ _) eqn:Hb; [|done]. intros Hk. by exists st.
  - intros Hk. by exists st.
  - intros H. destruct (IH1 _ _ _ H) as (st1 & H1 & H').
    destruct (IH2 _ _ _ H') as (st2 & H2 & Hk). exists st2. split; [|done].
    by exists st1.
  - destruct (re_match r1 st k) as [y|] eqn:E1.
    + intros [= ->]. destruct (IH1 _ _ _ E1) as (st' & ? & ?). exists st'. auto.
    + intros E2. destruct (IH2 _ _ _ E2) as (st' & ? & ?). exists st'. auto.
  - intros H.
    assert (∃ w s', rest st = w ++ s' ∧
              Forall (λ ch, class_matches c ch = true) w ∧ min ≤ length w ∧
              k (MState (prev_after (prev st) w) s' (group st)) = Some x)
      as (w & s' & Hs & Hw & Hmin & Hk).
    { destruct g; [apply repeat_greedy_sound in H|apply repeat_lazy_sound in H];
        exact H. }
    exists (MState (prev_after (prev st) w) s' (group st)). split; [|done].
    by exists w.
  - intros H. destruct (IH1 _ _ _ H) as (st1 & H1 & Hk).
    exists (capture st st1). split; [|done]. by exists st1.
Qed.

(** Completeness: where the relation has a match that the rest of the
    pattern accepts, the matcher finds one (not always the same one: it
    returns the first in its order of preference). *)
Lemma re_match_complete r st st' k x :
  matches r st st' → k st' = Some x → is_Some (re_match r st k).
Proof.
  revert st st' k x.
  induction r as [c| | |r1 IH1 r2 IH2|r1 IH1 r2 IH2|g min c|r1 IH1];
    intros st st' k x; simpl.
  - intros (ch & Hs & Hc & Hp & Hg) Hk. rewrite Hs, Hc.
    destruct st' as [p' s' g']; simpl in *; subst. by rewrite Hk.
  - intros [Hb ->] Hk. by rewrite Hb, Hk.
  - intros -> Hk. by rewrite Hk.
  - intros (st1 & H1 & H2) Hk.
    destruct (IH2 _ _ _ _ H2 Hk) as [y Hy]. by eapply IH1.
  - intros [H1|H2] Hk.
    + destruct (IH1 _ _ _ _ H1 Hk) as [y ->]. done.
    + destruct (re_match r1 st k); [done|]. by eapply IH2.
  - intros (w & Hs & Hw & Hmin & Hp & Hg) Hk. rewrite Hs.
    destruct st' as [p' s' g']; simpl in *; subst.
    destruct g; [eapply repeat_greedy_complete|eapply repeat_lazy_complete]; eauto.
  - intros (st1 & H1 & ->) Hk. by eapply IH1.
Qed.

(** A match only moves the cursor forward over the text. *)
Lemma matches_rest r st st' :
  matches r st st' →
  ∃ w, rest st = w ++ rest st' ∧ prev st' = prev_after (prev st) w.
Proof.
  revert st st'.
  induction r as [c| | |r1 IH1 r2 IH2|r1 IH1 r2 IH2|g min c|r1 IH1];
    intros st st'; simpl.
  - intros (ch & Hs & _ & Hp & _). exists [ch]. by rewrite Hs, Hp.
  - intros [_ ->]. by exists [].
  - intros ->. by exists [].
  - intros (st1 & H1 & H2).
    destruct (IH1 _ _ H1) as (w1 & E1 & P1), (IH2 _ _ H2) as (w2 & E2 & P2).
    exists (w1 ++ w2). by rewrite E1, E2, P2, P1, prev_after_app, app_assoc.
  - intros [H|H]; eauto.
  - intros (w & Hs & _ & _ & Hp & _). by exists w.
  - intros (st1 & H1 & ->). apply IH1 in H1 as (w & E & P). by exists w.
Qed.

Lemma consumed_app st st' w : rest st = w ++ rest st' → consumed st st' = w.
Proof.
  intros E. unfold consumed. rewrite E, length_app.
  replace (length w + length (rest st') - length (rest st')) with (length w) by lia.
  by rewrite take_app_length.
Qed.

(** ** The Dependency Extractor: what a match of its pattern looks like *)

Lemma chars_text l : chars (text l) = l.
Proof. apply String.list_ascii_of_string_of_list_ascii. Qed.

Lemma text_chars s : text (chars s) = s.
Proof. apply String.string_of_list_ascii_of_string. Qed.

(** Every element that [findall] lists is the group of a match that starts
    somewhere in the text. *)
Lemma findall_from_sound r skip p s d :
  d ∈ findall_from r skip p s →
  ∃ pre s1 st', s = pre ++ s1 ∧
    match_here r (prev_after p pre) s1 = Some st' ∧ d = group_text st'.
Proof.
  revert skip p. induction s as [|ch s IH]; intros skip p.
  - destruct skip; simpl; [|by intros ?%elem_of_nil].
    destruct (match_here r p []) as [st'|] eqn:E; [|by intros ?%elem_of_nil].
    intros ->%list_elem_of_singleton. by exists [], [], st'.
  - assert (Hlater : ∀ n, d ∈ findall_from r n (Some ch) s →
              ∃ pre s1 st', ch :: s = pre ++ s1 ∧
                match_here r (prev_after p pre) s1 = Some st' ∧
                d = group_text st').
    { intros n (pre & s1 & st' & -> & Hm & ->)%IH.
      exists (ch :: pre), s1, st'. by rewrite prev_after_cons. }
    destruct skip; simpl; [|by apply Hlater].
    destruct (match_here r p (ch :: s)) as [st'|] eqn:E; [|by apply Hlater].
    intros [->|Hd]%elem_of_cons; [|by eapply Hlater].
    by exists [], (ch :: s), st'.
Qed.

Lemma matches_foldl_alt r rs st st' :
  matches (foldl RAlt r rs) st st' →
  matches r st st' ∨ ∃ r', r' ∈ rs ∧ matches r' st st'.
Proof.
  revert r. induction rs as [|r1 rs IH]; intros r; simpl; [by left|].
  intros [[H|H]|(r' & Hr' & H)]%IH; [by left|right..].
  - exists r1. split; [left|done].
  - exists r'. split; [by right|done].
Qed.

Lemma matches_alternatives rs st st' :
  rs ≠ [] → matches (alternatives rs) st st' → ∃ r, r ∈ rs ∧ matches r st st'.
Proof.
  destruct rs as [|r rs]; [done|]. intros _ [H|(r' & Hr' & H)]%matches_foldl_alt.
  - exists r. split; [left|done].
  - exists r'. split; [by right|done].
Qed.

(** A word matched under (?i) equals the pattern's word up to case. *)
Lemma matches_word_ignore_case w st st' :
  matches (word_ignore_case w) st st' →
  ∃ w', rest st = w' ++ rest st' ∧ lower <$> w' = lower <$> w ∧
        group st' = group st.
Proof.
  revert st. induction w as [|c w IH]; intros st; simpl.
  - intros ->. by exists [].
  - intros (st1 & (ch & Hs & Hc & _ & Hg) & (w' & Hs' & Hw' & Hg')%IH).
    exists (ch :: w'). rewrite Hs, Hs', Hg', Hg. repeat split.
    apply bool_decide_eq_true in Hc. by rewrite !fmap_cons, Hc, Hw'.
Qed.

Lemma lower_letter_isword c x :
  x ∈ chars "FTIJUD" → lower c = lower x → isword c = true.
Proof.
  intros Hx. vm_compute in Hx.
  repeat (apply elem_of_cons in Hx as [->|Hx]); [..|by apply elem_of_nil in Hx];
    destruct c as [[] [] [] [] [] [] [] []]; vm_compute; congruence.
Qed.

Lemma keyword_like_word_ahead kw s :
  keyword_like kw → word_ahead (kw ++ s) = true.
Proof.
  intros (k & Hk & E). unfold keywords in Hk.
  repeat (apply elem_of_cons in Hk as [->|Hk]); [..|by apply elem_of_nil in Hk];
    (destruct kw as [|c kw]; [done|]); simpl in E; injection E as E _;
    simpl; eapply lower_letter_isword; try exact E; vm_compute;
    repeat first [by left|right].
Qed.

Lemma dependency_regex_sound p s st' :
  match_here dependency_regex p s = Some st' → reference p s (group_text st').
Proof.
  intros (st'' & H & [= <-])%re_match_sound. unfold dependency_regex in H.
  destruct H as (st0 & [Hb ->] & st1 & Hkw & st2 & Hws & st3 & Hq1 & st4 &
                 (st4' & Hid & ->) & Hq2).
  apply matches_alternatives in Hkw as (r & Hr & Hkw); [|done].
  apply list_elem_of_fmap in Hr as (k & -> & Hk).
  apply matches_word_ignore_case in Hkw as (kw & Ekw & Hlow & Gkw).
  destruct Hws as (ws & Ews & Hws & Hmin & _ & Gws).
  destruct Hq1 as (q1 & Eq1 & Hq1 & _ & Gq1).
  destruct Hid as (d & Ed & Hd & _ & _ & Gd).
  destruct Hq2 as (q2 & Eq2 & Hq2 & _ & Gq2).
  simpl in *. rewrite (consumed_app _ _ d Ed) in Gq2.
  assert (Hkwl : keyword_like kw) by (by exists k).
  unfold group_text. rewrite Gq2. simpl.
  apply (Reference p s d kw ws q1 q2 (rest st'')).
  - by rewrite Ekw, Ews, Eq1, Ed, Eq2.
  - unfold at_boundary in Hb. rewrite Ekw in Hb.
    rewrite (keyword_like_word_ahead kw _ Hkwl) in Hb.
    by destruct (word_before p).
  - done.
  - intros ->. simpl in Hmin. lia.
  - done.
  - by apply bool_decide_eq_true in Hq1.
  - by apply bool_decide_eq_true in Hq2.
  - intros Hin. rewrite Forall_forall in Hd. apply Hd in Hin.
    rewrite bool_decide_eq_true_2 in Hin by done. discriminate Hin.
Qed.

Lemma findall_dependency_regex sql d :
  d ∈ findall dependency_regex sql → referenced_in sql d.
Proof.
  intros (pre & s & st' & -> & Hm & ->)%findall_from_sound.
  rewrite prev_after_None in Hm.
  exists pre, s. split; [done|]. by apply dependency_regex_sound.
Qed.

(** ** The traversal of the Subgraph Extractor *)

Section Traversal.
Context (g : DependencyGraph) (root : Artifact).

Lemma replay_run t xs t' : replay g t xs = Some t' ↔ run g t xs t'.
Proof.
  split.
  - revert t. induction xs as [|x xs IH]; intros t; simpl.
    + intros [= ->]. constructor.
    + case_decide; [|done]. intros Hrest. constructor; auto.
  - induction 1 as [t|t x xs t' Hx _ IH]; simpl; [done|].
    by rewrite decide_True.
Qed.

Lemma run_app t xs t' ys t'' :
  run g t xs t' → run g t' ys t'' → run g t (xs ++ ys) t''.
Proof.
  induction 1 as [|t0 x xs0 t0' Hx _ IH]; simpl; [done|].
  intros Hys. constructor; auto.
Qed.

Lemma traversal_inv_initial : traversal_inv g root (initial root).
Proof.
  split; simpl.
  - intros a. rewrite list_elem_of_singleton. set_solver.
  - by apply list_elem_of_singleton.
  - intros a ->%list_elem_of_singleton. constructor.
  - set_solver.
Qed.

Lemma traversal_inv_visit t x :
  x ∈ lookup_artifacts t →
  traversal_inv g root t → traversal_inv g root (visit g x t).
Proof.
  intros Hx [Ha Hr Hre Hc].
  assert (Hxr : reachable g root x) by (apply Hre, Ha; auto).
  unfold visit. destruct (g !! x) as [deps|] eqn:Hg; split; simpl.
  - intros a. rewrite elem_of_app, Ha.
    rewrite !elem_of_union, elem_of_difference, elem_of_difference,
      elem_of_list_to_set, elem_of_singleton.
    destruct (decide (a ∈ visited t)); destruct (decide (a ∈ deps));
      destruct (decide (a = x)) as [->|]; tauto.
  - apply elem_of_app. auto.
  - intros a [?|Hd]%elem_of_app; [auto|].
    eapply rtc_r; [exact Hxr|]. by exists deps.
  - intros y z. rewrite elem_of_union, elem_of_singleton.
    rewrite !elem_of_union, elem_of_difference, elem_of_difference,
      elem_of_list_to_set, elem_of_singleton.
    intros [Hy| ->] Hyz.
    + destruct (Hc _ _ Hy Hyz); destruct (decide (z = x)); tauto.
    + destruct Hyz as (deps' & Hg' & Hz). rewrite Hg in Hg'. injection Hg' as <-.
      destruct (decide (z ∈ visited t)); tauto.
  - intros a. rewrite elem_of_app, Ha, list_elem_of_singleton.
    rewrite elem_of_union, elem_of_difference, !elem_of_singleton.
    destruct (decide (a = x)) as [->|]; tauto.
  - apply elem_of_app. auto.
  - intros a [?| ->%list_elem_of_singleton]%elem_of_app; auto.
  - intros y z. rewrite !elem_of_union, elem_of_difference, !elem_of_singleton.
    intros [Hy| ->] Hyz.
    + destruct (Hc _ _ Hy Hyz); destruct (decide (z = x)); tauto.
    + destruct Hyz as (deps' & Hg' & _). congruence.
Qed.

Lemma run_inv t xs t' :
  run g t xs t' → traversal_inv g root t → traversal_inv g root t'.
Proof. induction 1; auto using traversal_inv_visit. Qed.

(** When the loop ends, the visited set is the set of reachable artifacts,
    and so is the list of subgraph artifacts. *)
Lemma ends_visited t a :
  traversal_ends g root t → a ∈ visited t ↔ reachable g root a.
Proof.
  intros (xs & Hrun & Hempty).
  pose proof (run_inv _ _ _ Hrun traversal_inv_initial) as [Ha Hr Hre Hc].
  assert (Hv : ∀ b, b ∈ subgraph_artifacts t ↔ b ∈ visited t).
  { intros b. rewrite Ha, Hempty. set_solver. }
  split; [intros; by apply Hre, Hv|].
  unfold reachable. revert a. apply rtc_ind_r; [by apply Hv|].
  intros b c Hb Hbc IH.
  destruct (Hc _ _ IH Hbc) as [Hin|]; [|done]. rewrite Hempty in Hin. set_solver.
Qed.

Lemma ends_artifacts t a :
  traversal_ends g root t → a ∈ subgraph_artifacts t ↔ a ∈ visited t.
Proof.
  intros (xs & Hrun & Hempty).
  pose proof (run_inv _ _ _ Hrun traversal_inv_initial) as [Ha _ _ _].
  rewrite Ha, Hempty. set_solver.
Qed.

End Traversal.

Lemma dependency_dict_lookup (g : DependencyGraph) artifacts a :
  dependency_dict g artifacts !! a =
    if decide (a ∈ artifacts) then g !! a else None.
Proof.
  unfold dependency_dict.
  assert (H : ∀ d : gmap string (list string),
    foldl (λ d a, match g !! a with Some deps => <[a:=deps]> d | None => d end)
      d artifacts !! a =
    if decide (a ∈ artifacts)
    then match g !! a with Some deps => Some deps | None => d !! a end
    else d !! a).
  { induction artifacts as [|b l IH]; intros d; cbn [foldl].
    - by destruct (decide (a ∈ [])) as [?%elem_of_nil|].
    - rewrite IH.
      assert (Hd : a ≠ b →
        (match g !! b with Some deps => <[b:=deps]> d | None => d end) !! a
        = d !! a).
      { intros ?. destruct (g !! b); [by rewrite lookup_insert_ne|done]. }
      destruct (decide (a ∈ b :: l)) as [Hin|Hnin];
        destruct (decide (a ∈ l)) as [Hl|Hl].
      + destruct (g !! a) as [deps|] eqn:Ha; [done|].
        destruct (decide (a = b)) as [->|Hne]; [by rewrite Ha|by apply Hd].
      + apply elem_of_cons in Hin as [->|?]; [|done].
        destruct (g !! b) as [deps|] eqn:Hb; [by rewrite lookup_insert_eq|done].
      + exfalso. apply Hnin. by right.
      + apply Hd. intros ->. apply Hnin. left. }
  rewrite H, lookup_empty. destruct (decide (a ∈ artifacts)); [|done].
  by destruct (g !! a).
Qed.

(** *** The result of the traversal *)

(** The result holds exactly the keys of [g] that are reachable from the
    root, with their values. *)
Lemma subgraph_result_lookup (g : DependencyGraph) root out a deps :
  subgraph_result g root out →
  out !! a = Some deps ↔ g !! a = Some deps ∧ reachable g root a.
Proof.
  intros (xs & t & Hrun & Hempty & ->).
  assert (Hends : traversal_ends g root t) by (by exists xs).
  rewrite dependency_dict_lookup, <- (ends_visited g root t a Hends),
    <- (ends_artifacts g root t a Hends).
  destruct (decide (a ∈ subgraph_artifacts t)); naive_solver.
Qed.

(** Restricting a graph to what the root reaches keeps what the root
    reaches. *)
Lemma reachable_in_result (g : DependencyGraph) root out a :
  subgraph_result g root out → reachable g root a → reachable out root a.
Proof.
  intros Hout. unfold reachable. revert a. apply rtc_ind_r; [constructor|].
  intros b c Hb (deps & Hg & Hc) IH. eapply rtc_r; [exact IH|].
  exists deps. split; [|done]. by apply (subgraph_result_lookup g root out).
Qed.

Lemma subgraph_result_idempotent (g : DependencyGraph) root out out' :
  subgraph_result g root out → subgraph_result out root out' → out' = out.
Proof.
  intros Hout Hout'. apply map_eq. intros a. apply option_eq. intros deps.
  rewrite (subgraph_result_lookup out root out' a deps Hout').
  split; [tauto|]. intros Ha. split; [done|].
  apply (subgraph_result_lookup g root out a deps Hout) in Ha as [_ Hr].
  by eapply reachable_in_result.
Qed.

(** *** Counting the iterations of the loop *)

Section Counting.
Context (g : DependencyGraph).

Lemma pops_of_cons a x xs :
  pops_of a (x :: xs) = (if decide (x = a) then 1 else 0) + pops_of a xs.
Proof.
  unfold pops_of. rewrite filter_cons. by destruct (decide (x = a)).
Qed.

Lemma pops_inv_visit t x a n :
  x ∈ lookup_artifacts t → pops_inv g t a n →
  pops_inv g (visit g x t) a (n + if decide (x = a) then 1 else 0).
Proof.
  intros Hx. unfold pops_inv, visit.
  destruct (g !! x) as [deps|] eqn:Hg; simpl.
  - destruct (decide (x = a)) as [->|Hne].
    + rewrite (decide_True (P := a ∈ visited t ∪ {[a]})) by set_solver.
      destruct (decide (a ∈ visited t)) as [Hv|Hv].
      * rewrite (decide_True (P := a ∈ lookup_artifacts t)) by done.
        rewrite decide_False by set_solver. intros [-> He]. split; [lia|done].
      * intros ->. destruct (decide (a ∈ deps)) as [Hd|Hd].
        -- rewrite decide_True by set_solver. split; [done|]. by exists deps.
        -- rewrite decide_False by set_solver. split; [lia|]. simpl. lia.
    + rewrite Nat.add_0_r.
      destruct (decide (a ∈ visited t)) as [Hv|Hv].
      * rewrite (decide_True (P := a ∈ visited t ∪ {[x]})) by set_solver.
        destruct (decide (a ∈ lookup_artifacts t)) as [Hf|Hf].
        -- by rewrite decide_True by set_solver.
        -- by rewrite decide_False by set_solver.
      * by rewrite (decide_False (P := a ∈ visited t ∪ {[x]})) by set_solver.
  - destruct (decide (x = a)) as [->|Hne].
    + rewrite (decide_True (P := a ∈ visited t ∪ {[a]})) by set_solver.
      rewrite (decide_False (P := a ∈ lookup_artifacts t ∖ {[a]})) by set_solver.
      destruct (decide (a ∈ visited t)) as [Hv|Hv].
      * rewrite decide_True by done. intros [_ (deps & ? & _)]. congruence.
      * intros ->. split; [lia|]. simpl. lia.
    + rewrite Nat.add_0_r.
      destruct (decide (a ∈ visited t)) as [Hv|Hv].
      * rewrite (decide_True (P := a ∈ visited t ∪ {[x]})) by set_solver.
        destruct (decide (a ∈ lookup_artifacts t)) as [Hf|Hf].
        -- by rewrite decide_True by set_solver.
        -- by rewrite decide_False by set_solver.
      * by rewrite (decide_False (P := a ∈ visited t ∪ {[x]})) by set_solver.
Qed.

Lemma run_pops_inv t xs t' a n :
  run g t xs t' → pops_inv g t a n → pops_inv g t' a (n + pops_of a xs).
Proof.
  intros Hrun. revert n. induction Hrun as [t|t x xs t' Hx _ IH]; intros n Hn.
  - unfold pops_of. simpl. by rewrite Nat.add_0_r.
  - rewrite pops_of_cons, Nat.add_assoc. apply IH. by apply pops_inv_visit.
Qed.

Lemma size_after_pop (F V F' : gset string) (x : string) (n : nat) :
  x ∈ F →
  F' ∩ (V ∪ {[x]}) ⊆ (F ∩ V) ∖ {[x]} ∪ ({[x]} ∖ V) →
  n + size (F ∩ V) ≤ 2 * size V →
  S n + size (F' ∩ (V ∪ {[x]})) ≤ 2 * size (V ∪ {[x]}).
Proof.
  intros Hx Hsub Hn. apply subseteq_size in Hsub.
  rewrite (size_union ((F ∩ V) ∖ {[x]}) ({[x]} ∖ V)) in Hsub by set_solver.
  destruct (decide (x ∈ V)) as [Hv|Hv].
  - assert (E1 : ({[x]} ∖ V : gset string) = ∅) by set_solver.
    assert (E2 : V ∪ {[x]} = V) by set_solver.
    rewrite E1, size_empty in Hsub. rewrite E2 in *.
    rewrite (size_difference (F ∩ V) {[x]}), size_singleton in Hsub
      by set_solver.
    assert (1 ≤ size (F ∩ V)).
    { rewrite <- (size_singleton (C := gset string) x).
      apply subseteq_size. set_solver. }
    lia.
  - assert (E1 : ({[x]} ∖ V : gset string) = {[x]}) by set_solver.
    rewrite E1, size_singleton in Hsub.
    rewrite (size_union V {[x]}) by set_solver. rewrite size_singleton.
    assert (size ((F ∩ V) ∖ {[x]}) ≤ size (F ∩ V))
      by (apply subseteq_size; set_solver).
    lia.
Qed.

Lemma length_inv_visit t x n :
  x ∈ lookup_artifacts t → length_inv t n → length_inv (visit g x t) (S n).
Proof.
  intros Hx. unfold length_inv, visit.
  destruct (g !! x) as [deps|]; simpl;
    apply (size_after_pop (lookup_artifacts t)); set_solver.
Qed.

Lemma run_length_inv t xs t' n :
  run g t xs t' → length_inv t n → length_inv t' (n + length xs).
Proof.
  intros Hrun. revert n. induction Hrun as [t|t x xs t' Hx _ IH]; intros n Hn.
  - simpl. by rewrite Nat.add_0_r.
  - simpl. rewrite <- Nat.add_succ_comm. apply IH. by apply length_inv_visit.
Qed.

End Counting.

(** *** The executable traversal *)

Lemma elem_of_universe (g : DependencyGraph) root a :
  a ∈ universe g root ↔
  a = root ∨ ∃ k deps, g !! k = Some deps ∧ a ∈ deps.
Proof.
  unfold universe. revert a.
  apply (map_fold_weak_ind (λ (r : gset string) (m : gmap string (list string)),
    ∀ a, a ∈ r ↔ a = root ∨ ∃ k deps, m !! k = Some deps ∧ a ∈ deps)).
  - intros a. rewrite elem_of_singleton. split; [auto|].
    intros [?|(k & deps & Hk & _)]; [done|]. by rewrite lookup_empty in Hk.
  - intros i x m r Hi IH a. rewrite elem_of_union, elem_of_list_to_set, IH.
    split.
    + intros [Hx|[?|(k & deps & Hk & Ha)]]; [right|by left|right].
      * exists i, x. by rewrite lookup_insert_eq.
      * exists k, deps. split; [|done].
        rewrite lookup_insert_ne; [done|congruence].
    + intros [?|(k & deps & Hk & Ha)]; [by right; left|].
      apply lookup_insert_Some in Hk as [[-> ->]|[_ Hk]]; [by left|].
      right; right. by exists k, deps.
Qed.

Lemma reachable_universe (g : DependencyGraph) root a :
  reachable g root a → a ∈ universe g root.
Proof.
  intros [->|(y & _ & deps & Hy & Ha)]%rtc_inv_r; apply elem_of_universe;
    [by left|right]. by exists y, deps.
Qed.

Lemma pop_None (s : gset string) : pop s = None → s = ∅.
Proof.
  unfold pop. destruct (elements s) eqn:E; [|done]. intros _.
  by apply leibniz_equiv, elements_empty_inv.
Qed.

Lemma pop_Some (s : gset string) x : pop s = Some x → x ∈ s.
Proof.
  unfold pop. destruct (elements s) eqn:E; [done|]. intros [= ->].
  apply elem_of_elements. rewrite E. left.
Qed.

Lemma subseteq_size_empty (X : gset string) : X ⊆ ∅ → size X = 0.
Proof.
  intros HX. assert (X = ∅) as -> by set_solver. apply size_empty.
Qed.

Lemma run_length_bound (g : DependencyGraph) root xs t :
  run g (initial root) xs t → length xs ≤ 2 * size (visited t).
Proof.
  intros Hrun. apply (run_length_inv g _ _ _ 0) in Hrun.
  - unfold length_inv in Hrun. simpl in Hrun. lia.
  - unfold length_inv, initial. cbn [lookup_artifacts visited].
    rewrite (subseteq_size_empty ({[root]} ∩ ∅)) by set_solver. lia.
Qed.

Lemma run_visited_universe (g : DependencyGraph) root xs t :
  run g (initial root) xs t → visited t ⊆ universe g root.
Proof.
  intros Hrun a Ha.
  pose proof (run_inv g root _ _ _ Hrun (traversal_inv_initial g root))
    as [Hart _ Hre _].
  apply reachable_universe, Hre, Hart. by right.
Qed.

Lemma traverse_total (g : DependencyGraph) fuel t :
  (∀ xs t', run g t xs t' → length xs ≤ fuel) →
  ∃ t' xs, traverse fuel g t = Some t' ∧ run g t xs t' ∧
           lookup_artifacts t' = ∅.
Proof.
  revert t. induction fuel as [|fuel IH]; intros t Hbound.
  - destruct (pop (lookup_artifacts t)) as [x|] eqn:Hpop.
    + apply pop_Some in Hpop.
      specialize (Hbound [x] _ (run_pop g t x [] _ Hpop (run_done g _))).
      simpl in Hbound. lia.
    + exists t, []. simpl. rewrite Hpop.
      split; [done|]. split; [constructor|by apply pop_None].
  - simpl. destruct (pop (lookup_artifacts t)) as [x|] eqn:Hpop.
    + apply pop_Some in Hpop.
      destruct (IH (visit g x t)) as (t' & xs & Ht & Hrun & Hempty).
      { intros xs t' Hrun.
        specialize (Hbound (x :: xs) t' (run_pop g t x xs t' Hpop Hrun)).
        simpl in Hbound. lia. }
      exists t', (x :: xs). split; [done|]. split; [by constructor|done].
    + exists t, []. split; [done|]. split; [constructor|by apply pop_None].
Qed.

Lemma traverse_ends (g : DependencyGraph) root :
  ∃ t, traverse (2 * size (universe g root)) g (initial root) = Some t ∧
       traversal_ends g root t.
Proof.
  destruct (traverse_total g (2 * size (universe g root)) (initial root))
    as (t & xs & Ht & Hrun & Hempty).
  - intros xs t Hrun. pose proof (run_length_bound g root xs t Hrun).
    pose proof (subseteq_size _ _ (run_visited_universe g root xs t Hrun)).
    lia.
  - exists t. split; [done|]. by exists xs.
Qed.

(** The function is one of the results of the relation. *)
Lemma create_dependency_subgraph_result (g : DependencyGraph) root :
  subgraph_result g root (_create_dependency_subgraph g root).
Proof.
  destruct (traverse_ends g root) as (t & Ht & xs & Hrun & Hempty).
  unfold _create_dependency_subgraph. rewrite Ht. by exists xs, t.
Qed.

Lemma run_popped_visited (g : DependencyGraph) t xs t' :
  run g t xs t' →
  visited t ⊆ visited t' ∧ ∀ a, a ∈ xs → a ∈ visited t'.
Proof.
  induction 1 as [t|t x xs t' Hx _ [IHsub IHin]].
  - split; [done|]. by intros a ?%elem_of_nil.
  - assert (Hv : visited t ∪ {[x]} ⊆ visited t').
    { etrans; [|exact IHsub]. unfold visit. by destruct (g !! x). }
    split; [set_solver|].
    intros a [->|?]%elem_of_cons; [set_solver|auto].
Qed.

Lemma pops_inv_bound (g : DependencyGraph) t a n :
  pops_inv g t a n → n ≤ 2 ∧ (¬ edge g a a → n ≤ 1).
Proof.
  unfold pops_inv. repeat case_decide.
  - intros [-> _]. lia.
  - intros [? He]. split; [lia|]. intros Hne.
    destruct (decide (n = 2)) as [E|]; [by apply He in E|lia].
  - intros ->. lia.
Qed.

(** ** The Subgraph Extractor *)

(** C6.  For every graph and root, and whatever the order of the pops, the
    output of the Subgraph Extractor holds exactly the keys of the graph that
    the traversal has visited, each with its value list unchanged; the
    visited artifacts are those reachable from the root; the keys of the
    output are keys of the graph; a visited artifact that is not a key of the
    graph is no key of the output and, unless it is the root, is a value of
    an entry of the output.  The executable function returns this output. *)
Theorem subgraph_keeps_visited_keys (g : DependencyGraph) (root : Artifact)
    (t : traversal) :
  traversal_ends g root t →
  let out := dependency_dict g (subgraph_artifacts t) in
  out = filter (λ kv, kv.1 ∈ visited t) g ∧
  (∀ a, a ∈ visited t ↔ reachable g root a) ∧
  dom out ⊆ dom g ∧
  (∀ a, a ∈ visited t → g !! a = None →
     out !! a = None ∧
     (a ≠ root → ∃ k deps, out !! k = Some deps ∧ a ∈ deps)) ∧
  _create_dependency_subgraph g root = out.
Proof.
  intros Hends out.
  assert (Hres : subgraph_result g root out).
  { destruct Hends as (xs & Hrun & Hempty). by exists xs, t. }
  assert (Hfilter : out = filter (λ kv, kv.1 ∈ visited t) g).
  { apply map_eq. intros a. apply option_eq. intros deps.
    rewrite map_lookup_filter_Some, (subgraph_result_lookup g root out a deps Hres).
    simpl. by rewrite (ends_visited g root t a Hends). }
  split; [exact Hfilter|]. split; [intros a; by apply ends_visited|].
  split; [|split].
  - intros a [deps Ha]%elem_of_dom. apply elem_of_dom. exists deps.
    by apply (subgraph_result_lookup g root out a deps Hres).
  - intros a Ha Hnone. split.
    + apply eq_None_not_Some. intros [deps Hd].
      apply (subgraph_result_lookup g root out a deps Hres) in Hd as [Hd _].
      congruence.
    + intros Hne. apply (ends_visited g root t a Hends) in Ha.
      apply rtc_inv_r in Ha as [?|(k & Hk & deps & Hg & Hin)]; [done|].
      exists k, deps. split; [|done].
      by apply (subgraph_result_lookup g root out k deps Hres).
  - apply map_eq. intros a. apply option_eq. intros deps.
    rewrite (subgraph_result_lookup g root out a deps Hres).
    apply subgraph_result_lookup, create_dependency_subgraph_result.
Qed.

Lemma subgraph_keeps_visited_keys_witness :
  traversal_ends cyclic_graph "a" cyclic_end ∧
  let out := dependency_dict cyclic_graph (subgraph_artifacts cyclic_end) in
  out = filter (λ kv, kv.1 ∈ visited cyclic_end) cyclic_graph ∧
  (∀ a, a ∈ visited cyclic_end ↔ reachable cyclic_graph "a" a) ∧
  dom out ⊆ dom cyclic_graph ∧
  (∀ a, a ∈ visited cyclic_end → cyclic_graph !! a = None →
     out !! a = None ∧
     (a ≠ "a" → ∃ k deps, out !! k = Some deps ∧ a ∈ deps)) ∧
  _create_dependency_subgraph cyclic_graph "a" = out.
Proof.
  assert (H : traversal_ends cyclic_graph "a" cyclic_end).
  { exists ["a"; "c"; "b"]. split; [|vm_compute; reflexivity].
    apply replay_run. vm_compute. reflexivity. }
  split; [exact H|].
  exact (subgraph_keeps_visited_keys cyclic_graph "a" cyclic_end H).
Defined.

(** C7.  Subgraph extraction is idempotent: extracting from an extracted
    subgraph, with the same root, gives that subgraph again; for the
    executable function and for every order of the pops. *)
Theorem subgraph_idempotent (g : DependencyGraph) (root : Artifact) :
  _create_dependency_subgraph (_create_dependency_subgraph g root) root
  = _create_dependency_subgraph g root ∧
  ∀ out out',
    subgraph_result g root out → subgraph_result out root out' → out' = out.
Proof.
  split.
  - eapply subgraph_result_idempotent; apply create_dependency_subgraph_result.
  - apply subgraph_result_idempotent.
Qed.

(** An artifact that is one of its own values is popped twice. *)
Lemma self_loop_popped_twice : ¬ popped_at_most_once self_loop "a".
Proof.
  intros H.
  assert (Hrun : run self_loop (initial "a") ["a"; "a"]
                   (Traversal ∅ ["a"; "a"; "a"] {["a"]})).
  { apply replay_run. vm_compute. reflexivity. }
  specialize (H _ _ Hrun "a"). vm_compute in H. lia.
Qed.

(** C8 (amended).  The loop of the Subgraph Extractor ends on every graph,
    cyclic or not, whatever the order of the pops: the executable traversal
    reaches an end state within its fuel; every run pops only artifacts
    reachable from the root, at most twice as many as it has visited, and
    can be continued to a state with an empty frontier; an artifact is
    popped at most twice, and at most once unless it is one of its own
    values. *)
Theorem traversal_terminates (g : DependencyGraph) (root : Artifact) :
  (∃ t, traverse (2 * size (universe g root)) g (initial root) = Some t ∧
        traversal_ends g root t) ∧
  ∀ xs t, run g (initial root) xs t →
    length xs ≤ 2 * size (visited t) ∧
    size (visited t) ≤ size (universe g root) ∧
    (∀ a, a ∈ xs → a ∈ visited t) ∧
    (∀ a, a ∈ visited t → reachable g root a) ∧
    (∀ a, pops_of a xs ≤ 2 ∧ (¬ edge g a a → pops_of a xs ≤ 1)) ∧
    (∃ ys t', run g t ys t' ∧ lookup_artifacts t' = ∅).
Proof.
  split; [apply traverse_ends|]. intros xs t Hrun.
  split; [by eapply run_length_bound|].
  split; [by eapply subseteq_size, run_visited_universe|].
  split; [by apply (run_popped_visited g _ _ _ Hrun)|].
  split; [|split].
  - intros a Ha.
    pose proof (run_inv g root _ _ _ Hrun (traversal_inv_initial g root))
      as [Hart _ Hre _].
    apply Hre, Hart. by right.
  - intros a. apply (pops_inv_bound g t).
    apply (run_pops_inv g _ _ _ a 0 Hrun). unfold pops_inv.
    rewrite decide_False; [done|]. simpl. set_solver.
  - destruct (traverse_total g (2 * size (universe g root)) t)
      as (t' & ys & _ & Hys & Hempty); [|by exists ys, t'].
    intros ys t' Hys. pose proof (run_app g _ _ _ _ _ Hrun Hys) as Hall.
    pose proof (run_length_bound g root _ _ Hall) as Hlen.
    pose proof (subseteq_size _ _ (run_visited_universe g root _ _ Hall)).
    rewrite length_app in Hlen. lia.
Qed.

(** ** The Graph Builder *)

Lemma dict_set_keys {V} (k k' : string) (v : V) d :
  k' ∈ (dict_set k v d).*1 ↔ k' = k ∨ k' ∈ d.*1.
Proof.
  induction d as [|[k0 v0] d IH]; simpl.
  - rewrite list_elem_of_singleton. split; [auto|].
    by intros [?|?%elem_of_nil].
  - destruct (decide (k0 = k)) as [->|Hne]; simpl.
    + rewrite !elem_of_cons. tauto.
    + rewrite !elem_of_cons, IH. tauto.
Qed.

Lemma dict_get_keys {V} (k : string) (d : list (string * V)) :
  is_Some (dict_get k d) ↔ k ∈ d.*1.
Proof.
  induction d as [|[k0 v0] d IH]; simpl.
  - split; [by intros [? ?]|by intros ?%elem_of_nil].
  - rewrite elem_of_cons. destruct (decide (k0 = k)) as [->|Hne].
    + split; [by left|by eexists].
    + rewrite IH. split; [by right|]. by intros [?|?].
Qed.

Lemma path_lookup_of_keys sql_dir sql_paths acc path_lookup :
  path_lookup_of sql_dir sql_paths acc = Returned path_lookup →
  (∀ k, k ∈ acc.*1 → k ∈ path_lookup.*1) ∧
  (∀ k, k ∈ path_lookup.*1 →
     k ∈ acc.*1 ∨
     ∃ path, path ∈ sql_paths ∧
             _convert_path_to_artifact sql_dir path = Returned k) ∧
  ∀ path, path ∈ sql_paths →
    ∃ A, _convert_path_to_artifact sql_dir path = Returned A ∧
         A ∈ path_lookup.*1.
Proof.
  revert acc. induction sql_paths as [|p more IH]; intros acc; simpl.
  - intros [= ->]. split; [done|]. split; [by left|].
    by intros path ?%elem_of_nil.
  - destruct (_convert_path_to_artifact sql_dir p) as [a| |] eqn:Hp; [|done..].
    intros (Hacc & Hkeys & Hpaths)%IH. split; [|split].
    + intros k Hk. apply Hacc, dict_set_keys. by right.
    + intros k [[->|?]%dict_set_keys|(path & ? & ?)]%Hkeys.
      * right. exists p. split; [left|done].
      * by left.
      * right. exists path. split; [by right|done].
    + intros path [->|Hin]%elem_of_cons; [|by apply Hpaths].
      exists a. split; [done|]. apply Hacc, dict_set_keys. by left.
Qed.

(** The loop of the builder in the dependency orientation: every artifact it
    passes becomes a key, with the dependencies found in its file. *)
Lemma build_dependency fs path_lookup artifacts g0 log g log' :
  build fs path_lookup "dependency" artifacts g0 log = (Returned g, log') →
  (∀ A, A ∉ artifacts → g !! A = g0 !! A) ∧
  ∀ A, A ∈ artifacts →
    ∃ path sql, dict_get A path_lookup = Some path ∧
                read_text fs path = Some sql ∧
                g !! A = Some (_get_dependencies sql).
Proof.
  revert g0 log. induction artifacts as [|A0 more IH]; intros g0 log; simpl.
  - intros [= -> ->]. split; [done|]. by intros A ?%elem_of_nil.
  - unfold bind, lift, do_read.
    destruct (dict_get A0 path_lookup) as [path|] eqn:Hpath; [|done].
    destruct (read_text fs path) as [sql|] eqn:Hsql; [|done].
    unfold _create_dependency_graph_helper.
    rewrite decide_False by done. rewrite decide_True by done.
    intros [Hother Hin]%IH. split.
    + intros A HA. rewrite Hother by (intros ?; apply HA; by right).
      apply lookup_insert_ne. intros ->. apply HA. left.
    + intros A HA. destruct (decide (A ∈ more)) as [Hm|Hm]; [by apply Hin|].
      apply elem_of_cons in HA as [->|?]; [|done].
      exists path, sql. split; [done|]. split; [done|].
      rewrite Hother by done. apply lookup_insert_eq.
Qed.

(** C5.  In the dependency orientation and without a root, the graph that
    the builder returns has exactly the discovered artifacts as keys, also
    those without dependencies; each is mapped to the dependencies extracted
    from its file, and every file found under the scan directory resolves to
    one of the keys. *)
Theorem dependency_orientation_maps_artifacts (fs : filesystem)
    (sql_dir : string) (log : list io_event) (g : DependencyGraph)
    (log' : list io_event) :
  create_dependency_graph fs sql_dir "dependency" None log = (Returned g, log') →
  ∃ path_lookup,
    discovered fs sql_dir path_lookup ∧
    (∀ A, is_Some (g !! A) ↔ A ∈ path_lookup.*1) ∧
    (∀ A path, dict_get A path_lookup = Some path →
       ∃ sql, read_text fs path = Some sql ∧
              g !! A = Some (_get_dependencies sql)) ∧
    (∀ path, path ∈ rglob_sql fs (text (Path_str (chars sql_dir))) →
       ∃ A, _convert_path_to_artifact sql_dir path = Returned A ∧
            is_Some (g !! A)).
Proof.
  unfold create_dependency_graph. simpl.
  unfold bind at 1. unfold _get_path_lookup, bind at 1, do_rglob, lift, discovered.
  destruct (path_lookup_of _ _ _) as [path_lookup| |] eqn:Hpl; [|done..].
  unfold bind at 1.
  destruct (build _ _ _ _ _ _) as [[g'| |] log''] eqn:Hbuild; [|done..].
  intros [= -> ->]. apply build_dependency in Hbuild as [Hother Hin].
  assert (Hkeys : ∀ A, is_Some (g !! A) ↔ A ∈ path_lookup.*1).
  { intros A. split.
    - intros HA. destruct (decide (A ∈ path_lookup.*1)) as [|Hn]; [done|].
      rewrite (Hother A Hn), lookup_empty in HA. by destruct HA.
    - intros (path & sql & _ & _ & ->)%Hin. by eexists. }
  exists path_lookup. split; [done|]. split; [done|]. split.
  - intros A path Hget.
    destruct (Hin A) as (path' & sql & Hget' & Hsql & HA).
    { apply dict_get_keys. by eexists. }
    exists sql. split; [congruence|done].
  - intros path Hpath. apply path_lookup_of_keys in Hpl as (_ & _ & Hpaths).
    destruct (Hpaths path Hpath) as (A & HA & Hk).
    exists A. split; [done|]. by apply Hkeys.
Qed.

Lemma dependency_orientation_maps_artifacts_witness :
  create_dependency_graph test_data "tests/.test_data" "dependency" None []
  = (Returned test_data_dependencies, test_data_log) ∧
  ∃ path_lookup,
    discovered test_data "tests/.test_data" path_lookup ∧
    (∀ A, is_Some (test_data_dependencies !! A) ↔ A ∈ path_lookup.*1) ∧
    (∀ A path, dict_get A path_lookup = Some path →
       ∃ sql, read_text test_data path = Some sql ∧
              test_data_dependencies !! A = Some (_get_dependencies sql)) ∧
    (∀ path,
       path ∈ rglob_sql test_data (text (Path_str (chars "tests/.test_data"))) →
       ∃ A, _convert_path_to_artifact "tests/.test_data" path = Returned A ∧
            is_Some (test_data_dependencies !! A)).
Proof.
  assert (H : create_dependency_graph test_data "tests/.test_data"
                "dependency" None []
              = (Returned test_data_dependencies, test_data_log))
    by (vm_compute; reflexivity).
  split; [exact H|].
  exact (dependency_orientation_maps_artifacts test_data "tests/.test_data"
           [] test_data_dependencies test_data_log H).
Defined.

(** The second scenario of the test suite: the parents of one table. *)
Example test_data_parents :
  create_dependency_graph test_data "tests/.test_data" "parent"
    (Some "master_tables.package") []
  = (Returned {[ "master_tables.package" := ["master_views.customer"] ]},
     test_data_log).
Proof. vm_compute. reflexivity. Qed.

(** C4.  A relationship other than parent and dependency raises the
    assertion error, and the parent relationship without a root artifact
    raises the not-implemented error; in both cases the log of input/output
    is as it was: no directory has been listed and no file opened. *)
Theorem create_dependency_graph_rejects (fs : filesystem) (sql_dir : string)
    (relationship : string) (root_artifact : option Artifact)
    (log : list io_event) :
  (relationship ∉ ["parent"; "dependency"] →
   create_dependency_graph fs sql_dir relationship root_artifact log
   = (Raised (AssertionError bad_relationship), log)) ∧
  (relationship = "parent" → root_artifact = None →
   create_dependency_graph fs sql_dir relationship root_artifact log
   = (Raised (NotImplementedError root_required), log)).
Proof.
  unfold create_dependency_graph. split.
  - intros Hrel. by rewrite bool_decide_eq_false_2.
  - intros -> ->. reflexivity.
Qed.

Lemma create_dependency_graph_rejects_witness :
  create_dependency_graph test_data "tests/.test_data" "child"
    (Some "master_tables.package") []
  = (Raised (AssertionError bad_relationship), []) ∧
  create_dependency_graph test_data "tests/.test_data" "parent" None []
  = (Raised (NotImplementedError root_required), []).
Proof.
  split.
  - apply (create_dependency_graph_rejects test_data "tests/.test_data"
             "child" (Some "master_tables.package") []).
    vm_compute. intros H. repeat (apply elem_of_cons in H as [H|H]; [done|]).
    by apply elem_of_nil in H.
  - by apply (create_dependency_graph_rejects test_data "tests/.test_data"
                "parent" None []).
Defined.

(** C9.  An empty string as root artifact counts as no root artifact: in the
    dependency orientation the call does what it does without a root, which
    is to build the graph and return it whole, and in the parent orientation
    it raises the not-implemented error before any input/output. *)
Theorem empty_root_is_no_root (fs : filesystem) (sql_dir : string)
    (log : list io_event) :
  create_dependency_graph fs sql_dir "dependency" (Some EmptyString) log
  = create_dependency_graph fs sql_dir "dependency" None log ∧
  create_dependency_graph fs sql_dir "dependency" (Some EmptyString) log
  = (let* path_lookup := _get_path_lookup fs sql_dir in
     build fs path_lookup "dependency" path_lookup.*1 ∅) log ∧
  create_dependency_graph fs sql_dir "parent" (Some EmptyString) log
  = (Raised (NotImplementedError root_required), log).
Proof.
  split; [reflexivity|]. split; [|reflexivity].
  unfold create_dependency_graph. simpl. unfold bind.
  destruct (_get_path_lookup fs sql_dir log) as [[pl| |] log1]; [|done..].
  by destruct (build fs pl "dependency" pl.*1 ∅ log1) as [[g| |] log2].
Qed.

(** With a root artifact that is not empty the Subgraph Extractor runs. *)
Lemma create_dependency_graph_scoped fs sql_dir relationship root log g log' :
  root ≠ EmptyString →
  create_dependency_graph fs sql_dir relationship (Some root) log
  = (Returned g, log') →
  ∃ full, g = _create_dependency_subgraph full root.
Proof.
  intros Hroot. unfold create_dependency_graph.
  destruct (negb (bool_decide _)); [done|].
  destruct (_ && _); [done|]. unfold bind.
  destruct (_get_path_lookup fs sql_dir log) as [[pl| |] log1]; [|done..].
  destruct (build fs pl relationship pl.*1 ∅ log1) as [[full| |] log2]; [|done..].
  unfold truthy. rewrite bool_decide_eq_false_2 by done. simpl.
  intros [= <- <-]. by exists full.
Qed.

(** ** The Dependency Extractor: the claims *)

(** An identifier between a double quote and a backtick is matched. *)
Lemma mixed_delimiters_matched :
  _get_dependencies mixed_delimiters = ["a"] ∧
  ¬ same_delimiters (chars mixed_delimiters) (chars "a").
Proof.
  split; [vm_compute; reflexivity|].
  intros (pre & q & post & Hq & E). vm_compute in E.
  repeat (destruct pre as [|? pre]; simplify_eq/=).
Qed.

(** C1 (amended).  For every text, the list that the Dependency Extractor
    returns has no duplicates, and each of its elements stands in the text
    after one of the six keywords, in any case and as a whole word, then
    whitespace, between two delimiters, each a backtick or a double quote
    (the two need not be the same), on one line. *)
Theorem get_dependencies_distinct_and_referenced (sql : string) :
  NoDup (_get_dependencies sql) ∧
  ∀ d, d ∈ _get_dependencies sql →
    ∃ pre kw ws q1 q2 post,
      chars sql = pre ++ kw ++ ws ++ q1 :: chars d ++ q2 :: post ∧
      word_before (last pre) = false ∧
      keyword_like kw ∧
      ws ≠ [] ∧ Forall (λ c, isspace c = true) ws ∧
      q1 ∈ delimiters ∧ q2 ∈ delimiters ∧
      newline ∉ chars d.
Proof.
  unfold _get_dependencies. split; [apply NoDup_elements|].
  intros d (l & -> & Hl)%elem_of_elements%elem_of_list_to_set%list_elem_of_fmap.
  rewrite chars_text.
  apply findall_dependency_regex in Hl as (pre & s & -> & Href).
  destruct Href as [kw ws q1 q2 post -> Hword Hkw Hne Hws Hq1 Hq2 Hline].
  by exists pre, kw, ws, q1, q2, post.
Qed.

(** C10.  The Dependency Extractor can return the empty string: for a
    keyword, a space and two delimiters next to each other it returns the
    list of the empty string alone. *)
Theorem get_dependencies_empty_identifier :
  _get_dependencies empty_identifier = [EmptyString].
Proof. vm_compute. reflexivity. Qed.

(** The same for every keyword and every pair of delimiters. *)
Example empty_identifier_any_keyword k q1 q2 :
  k ∈ keywords → q1 ∈ delimiters → q2 ∈ delimiters →
  _get_dependencies (k +:+ " " +:+ String q1 (String q2 EmptyString))
  = [EmptyString].
Proof.
  unfold keywords, delimiters. intros Hk H1 H2.
  repeat (apply elem_of_cons in Hk as [->|Hk]); [..|by apply elem_of_nil in Hk];
    (repeat (apply elem_of_cons in H1 as [->|H1]); [..|by apply elem_of_nil in H1]);
    (repeat (apply elem_of_cons in H2 as [->|H2]); [..|by apply elem_of_nil in H2]);
    vm_compute; reflexivity.
Qed.

(** The scenario of the test suite. *)
Example test_get_dependencies :
  _get_dependencies ("
        select * from `bigdata.master_tables.order`
        left join `bigdata.master_tables.subscription`
        table `bigdata.master_tables.lemur`
        DELETE `bigdata.master_tables.dog`
        uPDate `bigdata.master_tables.cat`
        ads into " +:+ DQ +:+ "bigdata.master_tables.bird" +:+ DQ +:+ "
        ") ≡ₚ
  ["bigdata.master_tables.order"; "bigdata.master_tables.subscription";
   "bigdata.master_tables.cat"; "bigdata.master_tables.dog";
   "bigdata.master_tables.lemur"; "bigdata.master_tables.bird"].
Proof.
  vm_compute (_get_dependencies _). apply NoDup_Permutation.
  - repeat constructor; set_solver.
  - repeat constructor; set_solver.
  - set_solver.
Qed.

(** ** The Artifact Identifier Resolver *)

Lemma matches_dir_refl d : matches_dir d d.
Proof.
  induction d as [|c d IH]; constructor; [|done].
  case_bool_decide; [by subst|done].
Qed.

Lemma literal_pattern_plain d :
  Forall (λ c, c ∉ pattern_syntax) d ↔ is_Some (literal_pattern d).
Proof.
  induction d as [|c d IH]; simpl.
  - split; [by eexists|constructor].
  - rewrite Forall_cons, IH. case_bool_decide as Hc.
    + split; [by intros [? _]|by intros [? ?]].
    + destruct (literal_pattern d) as [r|].
      * split; [by eexists|]. intros _. split; [done|by eexists].
      * split; [by intros [_ [? ?]]|by intros [? ?]].
Qed.

Lemma matches_literal_pattern d r st st' :
  literal_pattern d = Some r →
  matches r st st' ↔
  ∃ m, rest st = m ++ rest st' ∧ matches_dir d m ∧
       prev st' = prev_after (prev st) m ∧ group st' = group st.
Proof.
  revert r st. induction d as [|c d IH]; intros r st; simpl.
  - intros [= <-]. simpl. split.
    + intros ->. exists []. repeat split. constructor.
    + intros (m & Hr & Hm & Hp & Hg). apply Forall2_nil_inv_l in Hm as ->.
      destruct st, st'; simpl in *. by subst.
  - case_bool_decide as Hsyn; [done|].
    destruct (literal_pattern d) as [r'|] eqn:Hd; [|done]. intros [= <-].
    simpl. split.
    + intros (st1 & (ch & Hs & Hc & Hp & Hg) & H2).
      apply (IH r' st1 eq_refl) in H2 as (m & Hs' & Hm & Hp' & Hg').
      exists (ch :: m). rewrite Hs, Hs', prev_after_cons, <- Hp, Hp', Hg', Hg.
      repeat split. constructor; [|done].
      case_bool_decide; simpl in Hc.
      * intros ->. by rewrite bool_decide_eq_true_2 in Hc.
      * by apply bool_decide_eq_true in Hc.
    + intros (m & Hr & Hm & Hp & Hg).
      apply Forall2_cons_inv_l in Hm as (ch & m' & Hc & Hm' & ->).
      exists (MState (Some ch) (m' ++ rest st') (group st)). split.
      * exists ch. repeat split; [done|].
        case_bool_decide; simpl.
        -- by rewrite bool_decide_eq_false_2.
        -- by apply bool_decide_eq_true.
      * apply (IH r' _ eq_refl). exists m'. simpl.
        by rewrite Hp, prev_after_cons.
Qed.

(** Where the pattern of the resolver matches. *)
Lemma match_here_path_regex d r p s :
  path_regex d = Some r →
  is_Some (match_here r p s) ↔
  ∃ m rel, s = m ++ slash :: rel ∧ matches_dir d m.
Proof.
  unfold path_regex. destruct (literal_pattern d) as [rd|] eqn:Hd; [|done].
  intros [= <-]. split.
  - intros [st' (st'' & (st1 & Hdir & st2 & Hslash & Hgrp) & _)%re_match_sound].
    apply (matches_literal_pattern d rd _ _ Hd) in Hdir as (m & Hs & Hm & _).
    destruct Hslash as (ch & Hs1 & ->%bool_decide_eq_true & _).
    exists m, (rest st2). simpl in Hs. by rewrite Hs, Hs1.
  - intros (m & rel & -> & Hm).
    eapply (re_match_complete _ _
              (capture (MState (Some slash) rel None)
                       (MState (Some slash) rel None)) Some); [|done].
    exists (MState (prev_after p m) (slash :: rel) None). split.
    + apply (matches_literal_pattern d rd _ _ Hd). by exists m.
    + exists (MState (Some slash) rel None). split.
      * exists slash. by repeat split.
      * exists (MState (Some slash) rel None). split; [|done].
        exists []. by repeat split.
Qed.

(** [findall] lists nothing exactly when the pattern matches nowhere. *)
Lemma findall_from_complete r p pre s :
  is_Some (match_here r (prev_after p pre) s) →
  findall_from r 0 p (pre ++ s) ≠ [].
Proof.
  revert p. induction pre as [|c pre IH]; intros p; simpl.
  - rewrite prev_after_nil. intros [st' Hst']. destruct s; simpl; by rewrite Hst'.
  - rewrite prev_after_cons. intros Hs.
    destruct (match_here r p (c :: pre ++ s)); [done|]. by apply IH.
Qed.

Lemma findall_nil r s :
  findall r s = [] ↔
  ∀ pre s1, s = pre ++ s1 → match_here r (last pre) s1 = None.
Proof.
  split.
  - intros Hnil pre s1 ->. apply eq_None_not_Some. intros Hs.
    apply (findall_from_complete r None pre s1); [|done].
    by rewrite prev_after_None.
  - intros Hnone. destruct (findall r s) as [|d l] eqn:E; [done|].
    assert (Hd : d ∈ findall r s) by (rewrite E; left).
    apply findall_from_sound in Hd as (pre & s1 & st' & -> & Hm & _).
    rewrite prev_after_None, (Hnone pre s1 eq_refl) in Hm. done.
Qed.

(** What the resolver does, for a scan directory whose name holds no
    pattern syntax but dots: it raises exactly when no text that the
    directory matches as a pattern, with a slash after it, stands anywhere
    in the path. *)
Lemma convert_path_raises_iff (sql_dir artifact_path : string) :
  plain_dir sql_dir →
  _convert_path_to_artifact sql_dir artifact_path
  = Raised (AssertionError path_not_found)
  ↔ ¬ dir_occurs sql_dir artifact_path.
Proof.
  intros Hplain. unfold plain_dir in Hplain.
  apply literal_pattern_plain in Hplain as [rd Hrd].
  unfold _convert_path_to_artifact, dir_occurs.
  set (d := Path_str (chars sql_dir)) in *.
  set (s := Path_str (chars artifact_path)).
  assert (Hr : ∃ r, path_regex d = Some r).
  { unfold path_regex. rewrite Hrd. by eexists. }
  destruct Hr as [r Hr]. rewrite Hr.
  assert (Hnil : findall r s = [] ↔
            ¬ ∃ pre m rel, s = pre ++ m ++ slash :: rel ∧ matches_dir d m).
  { rewrite findall_nil. split.
    - intros Hnone (pre & m & rel & Hs & Hm).
      specialize (Hnone pre (m ++ slash :: rel) Hs).
      assert (is_Some (match_here r (last pre) (m ++ slash :: rel))) as [? ?];
        [|congruence].
      apply (match_here_path_regex d r _ _ Hr). by exists m, rel.
    - intros Hno pre s1 ->. apply eq_None_not_Some.
      intros (m & rel & -> & Hm)%(match_here_path_regex d r _ _ Hr).
      apply Hno. by exists pre, m, rel. }
  rewrite <- Hnil. by destruct (findall r s).
Qed.

(** C3 (a defect of the code).  The resolver searches the path for the name
    of the scan directory, read as a pattern, anywhere in it, instead of
    taking the directory off its front.  With the current directory as scan
    directory, a file in it lies under the scan directory and is rejected,
    and a file in a subdirectory is resolved without its schema; with the
    scan directory [b], the path [a/b/c.sql] does not lie under it and is
    resolved.  So the error is not raised exactly for the paths outside the
    scan directory. *)
Theorem convert_path_misses_location :
  (located_under "." "a.sql" ∧
   _convert_path_to_artifact "." "a.sql"
   = Raised (AssertionError path_not_found)) ∧
  (located_under "." "schema/a.sql" ∧
   _convert_path_to_artifact "." "schema/a.sql" = Returned "a") ∧
  (¬ located_under "b" "a/b/c.sql" ∧
   _convert_path_to_artifact "b" "a/b/c.sql" = Returned "c") ∧
  ¬ raises_exactly_outside "." "a.sql" ∧
  ¬ raises_exactly_outside "b" "a/b/c.sql".
Proof.
  assert (Hin : located_under "." "a.sql").
  { split; [vm_compute; reflexivity|]. exists [chars "a.sql"].
    split; [done|vm_compute; reflexivity]. }
  assert (Hout : ¬ located_under "b" "a/b/c.sql").
  { intros [_ (rel & _ & E)]. vm_compute in E. discriminate E. }
  split; [split; [exact Hin|vm_compute; reflexivity]|].
  split.
  { split; [|vm_compute; reflexivity].
    split; [vm_compute; reflexivity|].
    exists [chars "schema"; chars "a.sql"].
    split; [done|vm_compute; reflexivity]. }
  split; [split; [exact Hout|vm_compute; reflexivity]|].
  split.
  - intros [H _]. apply H; [|exact Hin]. eexists. vm_compute. reflexivity.
  - intros [_ H]. destruct (H Hout) as [e He]. vm_compute in He. discriminate He.
Qed.

(** The files of the root directory and of the current directory do not
    start with the pattern of their directory and a slash. *)
Example root_directory_files :
  _convert_path_to_artifact "/" "/a.sql"
  = Raised (AssertionError path_not_found) ∧
  _convert_path_to_artifact "." "a.sql"
  = Raised (AssertionError path_not_found) ∧
  _convert_path_to_artifact "." "schema/a.sql" = Returned "a".
Proof. repeat split; vm_compute; reflexivity. Qed.

(** A directory name with other pattern syntax is outside the embedding. *)
Example directory_with_pattern_syntax :
  _convert_path_to_artifact "a+b" "a+b/x.sql" = Unmodelled.
Proof. vm_compute. reflexivity. Qed.

(** The scenarios of the test suite. *)
Example test_convert_path_to_artifact :
  _convert_path_to_artifact "tests/.test_data"
    "tests/.test_data/master_views/customer.sql"
  = Returned "master_views.customer" ∧
  _convert_path_to_artifact "tests/.test_data"
    "tests/.test_data/master_tables/customer.table.sql"
  = Returned "master_tables.customer" ∧
  _convert_path_to_artifact "tests/.test_data" "master_views/customer.sql"
  = Raised (AssertionError path_not_found) ∧
  _convert_path_to_artifact "tests/.test_data" "master_views/customer.txt"
  = Raised (AssertionError path_not_found).
Proof. repeat split; vm_compute; reflexivity. Qed.

(** *** Resolving a rebuilt path *)

Lemma swap_eq c d : swap c d c = d.
Proof. unfold swap. by rewrite bool_decide_eq_true_2. Qed.

Lemma swap_ne c d x : x ≠ c → swap c d x = x.
Proof. intros. unfold swap. by rewrite bool_decide_eq_false_2. Qed.

Lemma chars_app s1 s2 : chars (s1 +:+ s2) = chars s1 ++ chars s2.
Proof. induction s1 as [|c s1 IH]; simpl; [done|]. by rewrite <- IH. Qed.

Lemma replace_char c d s : replace [c] [d] s = swap c d <$> s.
Proof.
  unfold replace. induction s as [|x s IH]; [done|].
  cbn [replace_from startswith]. rewrite fmap_cons, <- IH. unfold swap.
  rewrite (bool_decide_ext (c = x) (x = c)) by done.
  case_bool_decide; simpl; [|done]. by destruct s.
Qed.

Lemma replace_absent old new s :
  contains old s = false → replace_from 0 old new s = s.
Proof.
  induction s as [|x s IH]; [done|]. cbn [contains replace_from].
  intros [-> Hs]%orb_false_elim. by rewrite IH.
Qed.

Lemma replace_from_deletes skip old s x :
  x ∈ replace_from skip old [] s → x ∈ s.
Proof.
  revert skip. induction s as [|y s IH]; intros skip; [done|].
  cbn [replace_from]. destruct skip.
  - destruct (startswith old (y :: s)); simpl.
    + intros ?%IH. by right.
    + intros [->|?%IH]%elem_of_cons; [left|by right].
  - intros ?%IH. by right.
Qed.

Lemma replace_deletes old s x : x ∈ replace old [] s → x ∈ s.
Proof.
  unfold replace. destruct old; [|apply replace_from_deletes].
  simpl. induction s as [|y s IH]; simpl; [done|].
  intros [->|?]%elem_of_cons; [left|right; auto].
Qed.

Lemma startswith_prefix p s : startswith p s = true ↔ ∃ r, s = p ++ r.
Proof.
  revert s. induction p as [|a p IH]; intros s; simpl.
  - split; [by exists s|done].
  - destruct s as [|b s]; [split; [done|by intros [? ?]]|].
    rewrite andb_true_iff, bool_decide_eq_true, IH. split.
    + intros [-> [r ->]]. by exists r.
    + intros [r [= -> ->]]. split; [done|by exists r].
Qed.

(** No occurrence of a marker begins in an artifact and ends in the
    extension that follows it. *)
Lemma startswith_table_sql s :
  startswith (chars ".table") s = false →
  startswith (chars ".table") (s ++ chars ".sql") = false.
Proof.
  intros H. destruct (startswith _ (s ++ _)) eqn:E; [|done].
  apply startswith_prefix in E as [r E].
  do 6 (destruct s as [|? s]; [by simplify_eq/=|]).
  simplify_eq/=.
Qed.

Lemma startswith_sql_sql x s :
  startswith (chars ".sql") (x :: s) = false →
  startswith (chars ".sql") (x :: s ++ chars ".sql") = false.
Proof.
  intros H. destruct (startswith _ (x :: s ++ _)) eqn:E; [|done].
  apply startswith_prefix in E as [r E].
  do 3 (destruct s as [|? s]; [by simplify_eq/=|]).
  simplify_eq/=.
Qed.

Lemma contains_table_sql s :
  contains (chars ".table") s = false →
  contains (chars ".table") (s ++ chars ".sql") = false.
Proof.
  induction s as [|x s IH]; [done|]. cbn [contains].
  intros [Hx Hs]%orb_false_elim.
  change ((x :: s) ++ chars ".sql") with (x :: (s ++ chars ".sql")).
  cbn [contains]. rewrite (IH Hs), orb_false_r.
  by apply (startswith_table_sql (x :: s)).
Qed.

Lemma replace_sql_suffix s :
  contains (chars ".sql") s = false →
  replace_from 0 (chars ".sql") [] (s ++ chars ".sql") = s.
Proof.
  induction s as [|x s IH]; [done|]. cbn [contains].
  intros [Hx Hs]%orb_false_elim.
  change ((x :: s) ++ chars ".sql") with (x :: (s ++ chars ".sql")).
  cbn [replace_from].
  by rewrite (startswith_sql_sql x s Hx), (IH Hs).
Qed.

(** Stripping the markers from a rebuilt name gives the artifact back. *)
Lemma strip_markers_rebuilt a :
  slash ∉ a →
  contains (chars ".table") a = false → contains (chars ".sql") a = false →
  strip_markers (replace [dot] [slash] a ++ chars ".sql") = a.
Proof.
  intros Hslash Htable Hsql. unfold strip_markers.
  rewrite !replace_char, fmap_app, <- list_fmap_compose.
  assert (E : (swap slash dot ∘ swap dot slash) <$> a = a).
  { rewrite <- (list_fmap_id a) at 2. apply list_fmap_ext.
    intros i x Hx. unfold swap. simpl.
    assert (x ≠ slash) by (intros ->; by apply list_elem_of_lookup_2 in Hx).
    repeat (case_bool_decide; simplify_eq/=); done. }
  rewrite E. change (swap slash dot <$> chars ".sql") with (chars ".sql").
  unfold replace. simpl.
  change [dot; "t"%char; "a"%char; "b"%char; "l"%char; "e"%char]
    with (chars ".table").
  change [dot; "s"%char; "q"%char; "l"%char] with (chars ".sql").
  rewrite (replace_absent _ _ _ (contains_table_sql a Htable)).
  by apply replace_sql_suffix.
Qed.

(** *** The path of a child of the scan directory *)

Lemma split_nonempty sep s : split sep s ≠ [].
Proof.
  destruct s as [|c s]; simpl; [done|].
  case_bool_decide; [done|]. by destruct (split sep s).
Qed.

Lemma split_app sep s t :
  split sep (s ++ sep :: t) = split sep s ++ split sep t.
Proof.
  induction s as [|c s IH]; simpl.
  - by rewrite bool_decide_eq_true_2.
  - rewrite IH. case_bool_decide; [done|].
    pose proof (split_nonempty sep s). by destruct (split sep s).
Qed.

Lemma join_cons sep w ws :
  ws ≠ [] → join sep (w :: ws) = w ++ sep ++ join sep ws.
Proof. by destruct ws. Qed.

Lemma join_app sep l1 l2 :
  l1 ≠ [] → l2 ≠ [] →
  join sep (l1 ++ l2) = join sep l1 ++ sep ++ join sep l2.
Proof.
  intros H1 H2. induction l1 as [|w l1 IH]; [done|].
  destruct l1 as [|w' l1].
  - simpl. by destruct l2.
  - change ((w :: w' :: l1) ++ l2) with (w :: ((w' :: l1) ++ l2)).
    rewrite !join_cons, IH by done. by rewrite <- !app_assoc.
Qed.

Lemma join_split sep s : join [sep] (split sep s) = s.
Proof.
  induction s as [|c s IH]; [done|]. simpl.
  pose proof (split_nonempty sep s) as Hne. case_bool_decide as Hc.
  - rewrite join_cons, IH by done. by subst.
  - destruct (split sep s) as [|w ws]; [done|].
    destruct ws as [|w' ws]; simpl in *; by rewrite <- IH.
Qed.

Lemma lstrip_slashes_app s t :
  lstrip_slashes s ≠ [] → lstrip_slashes (s ++ t) = lstrip_slashes s ++ t.
Proof.
  induction s as [|c s IH]; simpl; [done|]. case_bool_decide; [done|].
  by intros _.
Qed.

Lemma lstrip_slashes_length s : length (lstrip_slashes s) ≤ length s.
Proof.
  induction s as [|c s IH]; simpl; [done|]. case_bool_decide; simpl; lia.
Qed.

Lemma splitroot_app s t :
  (splitroot s).2 ≠ [] →
  splitroot (s ++ t) = ((splitroot s).1, (splitroot s).2 ++ t).
Proof.
  destruct s as [|c s]; [done|].
  change ((c :: s) ++ t) with (c :: (s ++ t)). unfold splitroot.
  case_bool_decide as Hc; [|done].
  change (c :: (s ++ t)) with ((c :: s) ++ t).
  pose proof (lstrip_slashes_length (c :: s)) as Hlen.
  destruct (_ =? 2) eqn:E; cbn [fst snd]; intros Hne;
    rewrite (lstrip_slashes_app _ t Hne), !length_app;
    replace (length (c :: s) + length t
             - (length (lstrip_slashes (c :: s)) + length t))
      with (length (c :: s) - length (lstrip_slashes (c :: s))) by lia;
    by rewrite E.
Qed.

Lemma filter_all (P : list ascii → Prop) `{!∀ x, Decision (P x)} l :
  Forall P l → filter P l = l.
Proof.
  induction 1 as [|x l Hx _ IH]; [done|].
  by rewrite filter_cons, decide_True, IH.
Qed.

Lemma components_cons_nonempty rel w ws :
  components rel = w :: ws → w ≠ [].
Proof.
  intros E. assert (Hw : w ∈ components rel) by (rewrite E; left).
  apply list_elem_of_filter in Hw as [Hw _]. unfold is_component in Hw.
  intros ->. done.
Qed.

(** A child of a directory that has a component of its own: its path is the
    path of the directory, a slash and the name of the child. *)
Lemma Path_str_child d r :
  components (splitroot d).2 ≠ [] →
  Forall (λ x, is_component x = true) (split slash r) →
  Path_str (d ++ slash :: r) = Path_str d ++ slash :: r.
Proof.
  intros Hd Hr. unfold Path_str.
  assert (Hrel : (splitroot d).2 ≠ []) by (by intros E; rewrite E in Hd).
  rewrite (splitroot_app d (slash :: r) Hrel).
  destruct (splitroot d) as [root rel]. simpl in *.
  unfold components in *. rewrite split_app, filter_app.
  rewrite (filter_all _ (split slash r) Hr).
  rewrite join_app, join_split by (done || apply split_nonempty).
  destruct (filter _ (split slash rel)) as [|w ws] eqn:E; [done|].
  assert (w ≠ []) by (by eapply components_cons_nonempty).
  assert (Hj : ∃ c y, join [slash] (w :: ws) = c :: y).
  { destruct w as [|c w]; [done|]. destruct ws; simpl; by eexists _, _. }
  destruct Hj as (c & y & ->).
  destruct root; simpl; by rewrite <- ?app_assoc.
Qed.

(** The segments of a rebuilt name are components of a path, provided the
    artifact has no empty segment before its last one. *)
Lemma rebuilt_segments a :
  slash ∉ a → contains [dot; dot] a = false →
  ∃ w ws,
    split slash ((swap dot slash <$> a) ++ chars ".sql") = w :: ws ∧
    Forall (λ x, is_component x = true) ws ∧
    (startswith [dot] a = false → is_component w = true).
Proof.
  induction a as [|c a IH].
  - intros _ _. exists (chars ".sql"), []. by repeat split.
  - intros Hslash Hdots. cbn [contains] in Hdots.
    apply orb_false_elim in Hdots as [Hstart Hdots].
    destruct IH as (w & ws & Hsplit & Hws & Hw).
    { intros ?. apply Hslash. by right. }
    { done. }
    rewrite fmap_cons. cbn [app split]. rewrite Hsplit.
    destruct (decide (c = dot)) as [->|Hc].
    + rewrite swap_eq, bool_decide_eq_true_2 by done.
      exists [], (w :: ws). split; [done|]. split.
      * constructor; [|done]. apply Hw. by simpl in Hstart.
      * intros Hs. by simpl in Hs.
    + rewrite swap_ne by done.
      rewrite bool_decide_eq_false_2 by (intros ->; apply Hslash; left).
      exists (c :: w), ws. split; [done|]. split; [done|]. intros _.
      unfold is_component. rewrite !bool_decide_eq_false_2; [done|congruence|done].
Qed.

Lemma rebuilt_components a :
  slash ∉ a → contains [dot; dot] a = false → startswith [dot] a = false →
  Forall (λ x, is_component x = true)
    (split slash ((swap dot slash <$> a) ++ chars ".sql")).
Proof.
  intros Hslash Hdots Hstart.
  destruct (rebuilt_segments a Hslash Hdots) as (w & ws & -> & Hws & Hw).
  constructor; auto.
Qed.

(** *** The pattern of the resolver on a rebuilt path *)

Lemma re_match_literal_pattern d r p s g k :
  literal_pattern d = Some r →
  re_match r (MState p (d ++ s) g) k = k (MState (prev_after p d) s g).
Proof.
  revert r p. induction d as [|c d IH]; intros r p; simpl.
  - by intros [= <-].
  - case_bool_decide; [done|].
    destruct (literal_pattern d) as [r'|] eqn:Hd; [|done]. intros [= <-].
    simpl. rewrite prev_after_cons.
    assert (Hc : class_matches (if bool_decide (c = dot) then CAny
                                else CLiteral c) c = true).
    { case_bool_decide; simpl; [by subst|by apply bool_decide_eq_true]. }
    rewrite Hc. by apply IH.
Qed.

Lemma repeat_greedy_all {A} c p w (k : option ascii → list ascii → option A) x :
  Forall (λ ch, class_matches c ch = true) w →
  k (prev_after p w) [] = Some x →
  repeat_greedy c 0 p w k = Some x.
Proof.
  intros Hw. revert p. induction Hw as [|ch w Hc _ IH]; intros p; simpl.
  - done.
  - rewrite prev_after_cons, Hc. intros Hk. by rewrite (IH _ Hk).
Qed.

Lemma match_here_child d r p name :
  path_regex d = Some r → newline ∉ name →
  match_here r p (d ++ slash :: name)
  = Some (MState (prev_after (Some slash) name) [] (Some name)).
Proof.
  unfold path_regex. destruct (literal_pattern d) as [rd|] eqn:Hd; [|done].
  intros [= <-] Hnl. unfold match_here, start. cbn [re_match].
  rewrite (re_match_literal_pattern d rd _ _ _ _ Hd).
  cbn [re_match rest group prev class_matches].
  rewrite (bool_decide_eq_true_2 (slash = slash)) by done.
  apply repeat_greedy_all.
  - apply Forall_forall. intros ch Hch. simpl.
    rewrite bool_decide_eq_false_2; [done|]. by intros ->.
  - unfold capture, consumed. simpl. by rewrite Nat.sub_0_r, firstn_all.
Qed.

Lemma findall_head r s st' :
  match_here r None s = Some st' →
  ∃ tail, findall r s = group_text st' :: tail.
Proof.
  intros H. unfold findall. destruct s; simpl; rewrite H; by eexists.
Qed.

(** What the resolver returns holds neither a slash nor a newline. *)
Lemma convert_path_returned sql_dir artifact_path a :
  _convert_path_to_artifact sql_dir artifact_path = Returned a →
  is_Some (path_regex (Path_str (chars sql_dir))) ∧
  (slash ∉ chars a) ∧ (newline ∉ chars a).
Proof.
  unfold _convert_path_to_artifact.
  destruct (path_regex _) as [r|] eqn:Hr; [|done].
  destruct (findall r _) as [|p0 l] eqn:E; [done|]. intros [= <-].
  split; [by eexists|]. rewrite chars_text.
  assert (Hp0 : newline ∉ p0).
  { assert (Hin : p0 ∈ findall r (Path_str (chars artifact_path)))
      by (rewrite E; left).
    apply findall_from_sound in Hin as (pre & s1 & st' & _ & Hm & ->).
    apply re_match_sound in Hm as (st'' & Hm & [= <-]).
    unfold path_regex in Hr. destruct (literal_pattern _); [|done].
    injection Hr as <-.
    destruct Hm as (st1 & _ & st2 & _ & st3 & (w & Hw & Hall & _) & ->).
    unfold group_text. simpl. rewrite (consumed_app _ _ w Hw).
    intros Hnl. rewrite Forall_forall in Hall. apply Hall in Hnl.
    by vm_compute in Hnl. }
  assert (Hswap : ∀ x, x ∈ strip_markers p0 →
            ∃ y, y ∈ p0 ∧ x = swap slash dot y).
  { intros x Hx. unfold strip_markers in Hx.
    apply replace_deletes, replace_deletes in Hx. rewrite replace_char in Hx.
    apply list_elem_of_fmap in Hx as (y & -> & Hy). by exists y. }
  split; intros (y & Hy & E')%Hswap; unfold swap in E'; case_bool_decide;
    simplify_eq/=.
Qed.

(** The resolver removes the markers wherever they stand, and what is left
    can hold a marker again: the rebuilt path then resolves to another
    artifact. *)
Lemma round_trip_fails :
  located_under "d" "d/x.s.sqlql.sql" ∧
  _convert_path_to_artifact "d" "d/x.s.sqlql.sql" = Returned "x.sql" ∧
  reconstruct "d" "x.sql" = "d/x/sql.sql" ∧
  _convert_path_to_artifact "d" "d/x/sql.sql" = Returned "x" ∧
  ¬ round_trip "d" "d/x.s.sqlql.sql".
Proof.
  split.
  { split; [vm_compute; reflexivity|]. exists [chars "x.s.sqlql.sql"].
    split; [done|vm_compute; reflexivity]. }
  split; [vm_compute; reflexivity|]. split; [vm_compute; reflexivity|].
  split; [vm_compute; reflexivity|].
  intros H. specialize (H "x.sql" ltac:(vm_compute; reflexivity)).
  vm_compute in H. discriminate H.
Qed.

(** So does a hidden directory: the slash that stands for its leading dot
    disappears from the rebuilt path. *)
Example round_trip_fails_hidden :
  _convert_path_to_artifact "d" "d/.hidden/x.sql" = Returned ".hidden.x" ∧
  _convert_path_to_artifact "d" (reconstruct "d" ".hidden.x")
  = Returned "hidden.x".
Proof. split; vm_compute; reflexivity. Qed.

(** C2 (amended).  For a scan directory whose name holds no pattern syntax
    but dots and that has a component of its own (it is neither the root
    nor the current directory), and a path that resolves to an artifact:
    when the artifact holds neither of the markers .table and .sql, does
    not start with a dot and has no two dots in a row, the path rebuilt
    from the scan directory and the artifact (dots to slashes, .sql
    appended) resolves to the same artifact.  Nothing is said of scan
    directories whose name holds other pattern syntax. *)
Theorem resolve_rebuilt_path (sql_dir artifact_path : string) (a : Artifact) :
  plain_dir sql_dir →
  components (splitroot (chars sql_dir)).2 ≠ [] →
  _convert_path_to_artifact sql_dir artifact_path = Returned a →
  contains (chars ".table") (chars a) = false →
  contains (chars ".sql") (chars a) = false →
  contains (chars "..") (chars a) = false →
  startswith (chars ".") (chars a) = false →
  _convert_path_to_artifact sql_dir (reconstruct sql_dir a) = Returned a.
Proof.
  intros Hplain Hdir Hconv Htable Hsql Hdots Hstart.
  destruct (convert_path_returned _ _ _ Hconv) as ([r Hr] & Hslash & Hnl).
  set (name := (swap dot slash <$> chars a) ++ chars ".sql").
  assert (Hchars : chars (reconstruct sql_dir a) = chars sql_dir ++ slash :: name).
  { unfold reconstruct. by rewrite !chars_app, chars_text, replace_char. }
  assert (Hname : newline ∉ name).
  { unfold name. rewrite elem_of_app, list_elem_of_fmap.
    intros [(y & E & Hy)|Hin].
    - unfold swap in E. case_bool_decide; simplify_eq/=.
    - vm_compute in Hin.
      repeat (apply elem_of_cons in Hin as [Hin|Hin]; [done|]).
      by apply elem_of_nil in Hin. }
  unfold _convert_path_to_artifact. rewrite Hr, Hchars.
  rewrite (Path_str_child (chars sql_dir) name Hdir)
    by (by apply rebuilt_components).
  destruct (findall_head r _ _
              (match_here_child (Path_str (chars sql_dir)) r None name Hr Hname))
    as [tail ->].
  unfold group_text, name. simpl.
  rewrite <- replace_char, strip_markers_rebuilt by done.
  by rewrite text_chars.
Qed.

Lemma resolve_rebuilt_path_witness :
  plain_dir "tests/.test_data" ∧
  components (splitroot (chars "tests/.test_data")).2 ≠ [] ∧
  _convert_path_to_artifact "tests/.test_data"
    "tests/.test_data/master_tables/customer.table.sql"
  = Returned "master_tables.customer" ∧
  _convert_path_to_artifact "tests/.test_data"
    (reconstruct "tests/.test_data" "master_tables.customer")
  = Returned "master_tables.customer".
Proof.
  assert (H0 : plain_dir "tests/.test_data")
    by (apply literal_pattern_plain; vm_compute; by eexists).
  assert (H1 : components (splitroot (chars "tests/.test_data")).2 ≠ [])
    by (vm_compute; discriminate).
  assert (H2 : _convert_path_to_artifact "tests/.test_data"
                 "tests/.test_data/master_tables/customer.table.sql"
               = Returned "master_tables.customer")
    by (vm_compute; reflexivity).
  split; [exact H0|]. split; [exact H1|]. split; [exact H2|].
  apply (resolve_rebuilt_path "tests/.test_data"
           "tests/.test_data/master_tables/customer.table.sql"
           "master_tables.customer" H0 H1 H2);
    vm_compute; reflexivity.
Defined.

(** * More of the code *)

(** ** The path lookup of the builder *)

Lemma dict_get_set {V} (k k' : string) (v : V) d :
  dict_get k' (dict_set k v d) = if decide (k = k') then Some v else dict_get k' d.
Proof.
  induction d as [|[k0 v0] d IH]; simpl.
  - by destruct (decide (k = k')).
  - destruct (decide (k0 = k)) as [->|Hne]; simpl.
    + by destruct (decide (k = k')).
    + rewrite IH. destruct (decide (k0 = k')) as [->|?]; [|done].
      by rewrite decide_False.
Qed.

Lemma dict_set_NoDup {V} (k : string) (v : V) d :
  NoDup d.*1 → NoDup (dict_set k v d).*1.
Proof.
  induction d as [|[k0 v0] d IH]; simpl.
  - intros _. apply NoDup_singleton.
  - intros [Hk0 Hd]%NoDup_cons. destruct (decide (k0 = k)) as [->|Hne]; simpl.
    + by apply NoDup_cons.
    + apply NoDup_cons. split; [|auto].
      intros [?|?]%dict_set_keys; [congruence|done].
Qed.

Lemma dict_get_elem {V} (d : list (string * V)) k v :
  NoDup d.*1 → (k, v) ∈ d → dict_get k d = Some v.
Proof.
  induction d as [|[k0 v0] d IH]; [by intros _ ?%elem_of_nil|].
  rewrite fmap_cons. cbn [fst dict_get].
  intros [Hk0 Hd]%NoDup_cons [[= -> ->]|Hin]%elem_of_cons.
  - by rewrite decide_True.
  - rewrite decide_False; [by apply IH|].
    intros ->. apply Hk0. apply list_elem_of_fmap. by exists (k, v).
Qed.

Lemma dict_get_entries {V} (d : list (string * V)) :
  NoDup d.*1 → Forall2 (λ k v, dict_get k d = Some v) d.*1 d.*2.
Proof.
  intros Hd. apply Forall2_fmap, Forall_Forall2_diag, Forall_forall.
  intros [k v] Hin. by apply dict_get_elem.
Qed.

Lemma path_lookup_of_NoDup sql_dir sql_paths acc path_lookup :
  path_lookup_of sql_dir sql_paths acc = Returned path_lookup →
  NoDup acc.*1 → NoDup path_lookup.*1.
Proof.
  revert acc. induction sql_paths as [|p more IH]; intros acc; simpl.
  - by intros [= ->].
  - destruct (_convert_path_to_artifact sql_dir p); [|done..].
    intros H Hacc. eapply IH; [exact H|]. by apply dict_set_NoDup.
Qed.

Lemma path_lookup_of_get sql_dir sql_paths acc path_lookup A :
  path_lookup_of sql_dir sql_paths acc = Returned path_lookup →
  dict_get A path_lookup =
    match last (filter (λ p, _convert_path_to_artifact sql_dir p = Returned A)
                       sql_paths) with
    | Some p => Some p
    | None => dict_get A acc
    end.
Proof.
  revert acc. induction sql_paths as [|p more IH]; intros acc; simpl.
  - by intros [= ->].
  - destruct (_convert_path_to_artifact sql_dir p) as [a| |] eqn:Hp; [|done..].
    intros H. rewrite (IH _ H), dict_get_set, filter_cons.
    destruct (decide (a = A)) as [->|Hne].
    + rewrite decide_True by done.
      destruct (filter _ more) as [|q l] eqn:E; [done|].
      rewrite !last_cons. by destruct (last l).
    + by rewrite decide_False by congruence.
Qed.
(** X1.  The path lookup has every artifact once, and an artifact that
    several files resolve to is looked up to the last of them in the order
    of the listing; building it lists the directory and opens no file. *)
Theorem path_lookup_last_file_wins (fs : filesystem) (sql_dir : string)
    (log : list io_event) (path_lookup : list (string * string))
    (log' : list io_event) :
  _get_path_lookup fs sql_dir log = (Returned path_lookup, log') →
  NoDup path_lookup.*1 ∧
  log' = log ++ [IoRglob (text (Path_str (chars sql_dir)))] ∧
  ∀ A, dict_get A path_lookup =
       last (filter (λ p, _convert_path_to_artifact sql_dir p = Returned A)
                    (rglob_sql fs (text (Path_str (chars sql_dir))))).
Proof.
  unfold _get_path_lookup, bind, do_rglob, lift.
  destruct (path_lookup_of _ _ _) as [pl| |] eqn:Hpl; [|done..].
  intros [= -> <-]. split; [|split; [done|]].
  - eapply path_lookup_of_NoDup; [exact Hpl|constructor].
  - intros A. rewrite (path_lookup_of_get _ _ _ _ A Hpl). simpl.
    by destruct (last _).
Qed.

Lemma path_lookup_last_file_wins_witness :
  _get_path_lookup test_data "tests/.test_data" []
  = (Returned
       [("master_views.customer", "tests/.test_data/master_views/customer.sql");
        ("master_views.package", "tests/.test_data/master_views/package.sql");
        ("master_tables.package",
         "tests/.test_data/master_tables/package.table.sql");
        ("master_tables.customer",
         "tests/.test_data/master_tables/customer.table.sql")],
     [IoRglob "tests/.test_data"]) ∧
  dict_get "master_tables.package"
    [("master_views.customer", "tests/.test_data/master_views/customer.sql");
     ("master_views.package", "tests/.test_data/master_views/package.sql");
     ("master_tables.package",
      "tests/.test_data/master_tables/package.table.sql");
     ("master_tables.customer",
      "tests/.test_data/master_tables/customer.table.sql")]
  = last (filter (λ p, _convert_path_to_artifact "tests/.test_data" p
                       = Returned "master_tables.package")
                 (rglob_sql test_data
                    (text (Path_str (chars "tests/.test_data"))))).
Proof.
  assert (H : _get_path_lookup test_data "tests/.test_data" []
    = (Returned
         [("master_views.customer", "tests/.test_data/master_views/customer.sql");
          ("master_views.package", "tests/.test_data/master_views/package.sql");
          ("master_tables.package",
           "tests/.test_data/master_tables/package.table.sql");
          ("master_tables.customer",
           "tests/.test_data/master_tables/customer.table.sql")],
       [IoRglob "tests/.test_data"])) by (vm_compute; reflexivity).
  split; [exact H|].
  apply (path_lookup_last_file_wins test_data "tests/.test_data" [] _ _ H).
Defined.

(** Two files of one artifact: the table and the view of [s.t]. *)
Example path_lookup_two_files :
  path_lookup_of "d" ["d/s/t.table.sql"; "d/s/u.sql"; "d/s/t.sql"] []
  = Returned [("s.t", "d/s/t.sql"); ("s.u", "d/s/u.sql")].
Proof. vm_compute. reflexivity. Qed.

(** ** The loop of the builder *)

Lemma helper_valid artifact dependencies g relationship :
  relationship ∈ ["parent"; "dependency"] →
  ∃ g', _create_dependency_graph_helper artifact dependencies g relationship
        = Returned g'.
Proof.
  intros [->|[->|?%elem_of_nil]%elem_of_cons]%elem_of_cons; [..|done];
    unfold _create_dependency_graph_helper; simpl; by eexists.
Qed.

(** A loop that returns has opened the file of each of its artifacts, in
    their order. *)
Lemma build_returned_log fs path_lookup relationship artifacts paths g0 log g log' :
  Forall2 (λ A p, dict_get A path_lookup = Some p) artifacts paths →
  build fs path_lookup relationship artifacts g0 log = (Returned g, log') →
  log' = log ++ (IoOpen <$> paths) ∧
  Forall (λ p, is_Some (read_text fs p)) paths.
Proof.
  intros Hpaths. revert g0 log.
  induction Hpaths as [|A p artifacts paths HA _ IH]; intros g0 log; simpl.
  - intros [= -> ->]. by rewrite app_nil_r.
  - unfold bind, lift, do_read. rewrite HA.
    destruct (read_text fs p) as [sql|] eqn:Hsql; [|done].
    destruct (_create_dependency_graph_helper _ _ _ _) as [g1| |]; [|done..].
    intros [-> Hall]%IH. rewrite <- app_assoc. split; [done|].
    constructor; [by eexists|done].
Qed.

(** A loop stops at the first file that cannot be read. *)
Lemma build_unreadable fs path_lookup relationship artifacts ok p rest g0 log :
  relationship ∈ ["parent"; "dependency"] →
  Forall2 (λ A p, dict_get A path_lookup = Some p) artifacts (ok ++ p :: rest) →
  Forall (λ q, is_Some (read_text fs q)) ok →
  read_text fs p = None →
  build fs path_lookup relationship artifacts g0 log
  = (Raised (OSError p), log ++ (IoOpen <$> ok ++ [p])).
Proof.
  intros Hrel Hpaths Hok Hp. revert artifacts g0 log Hpaths.
  induction Hok as [|q ok [sql Hq] _ IH]; intros artifacts g0 log Hpaths.
  - apply Forall2_cons_inv_r in Hpaths as (A & artifacts' & HA & _ & ->).
    simpl. unfold bind, lift, do_read. by rewrite HA, Hp.
  - apply Forall2_cons_inv_r in Hpaths as (A & artifacts' & HA & Hrest & ->).
    simpl. unfold bind, lift, do_read. rewrite HA, Hq.
    destruct (helper_valid A (_get_dependencies sql) g0 relationship Hrel)
      as [g1 ->].
    rewrite (IH artifacts' g1 _ Hrest). by rewrite <- app_assoc.
Qed.

(** The call, when it gets past its two checks. *)
Lemma create_dependency_graph_steps fs sql_dir relationship root_artifact log :
  relationship ∈ ["parent"; "dependency"] →
  (relationship = "parent" → truthy root_artifact = true) →
  create_dependency_graph fs sql_dir relationship root_artifact log
  = (let* path_lookup := _get_path_lookup fs sql_dir in
     let* dependency_graph :=
       build fs path_lookup relationship path_lookup.*1 ∅ in
     match root_artifact with
     | Some root =>
         if truthy root_artifact
         then ret (_create_dependency_subgraph dependency_graph root)
         else ret dependency_graph
     | None => ret dependency_graph
     end) log.
Proof.
  intros Hrel Hroot. unfold create_dependency_graph.
  rewrite bool_decide_eq_true_2 by done. simpl.
  case_bool_decide as Hp; simpl; [|done]. by rewrite (Hroot Hp).
Qed.

Lemma create_dependency_graph_checked fs sql_dir relationship root_artifact
    log g log' :
  create_dependency_graph fs sql_dir relationship root_artifact log
  = (Returned g, log') →
  relationship ∈ ["parent"; "dependency"] ∧
  (relationship = "parent" → truthy root_artifact = true).
Proof.
  unfold create_dependency_graph. case_bool_decide as Hrel; simpl; [|done].
  case_bool_decide as Hp; simpl; [|by intros _; split].
  destruct (truthy root_artifact); simpl; [by intros _; split|done].
Qed.

(** What a call that returns has done: it has built the path lookup, run
    the loop over its keys, and scoped the graph when a root was given. *)
Lemma create_dependency_graph_returned fs sql_dir relationship root_artifact
    log g log' :
  create_dependency_graph fs sql_dir relationship root_artifact log
  = (Returned g, log') →
  ∃ path_lookup full,
    discovered fs sql_dir path_lookup ∧ NoDup path_lookup.*1 ∧
    build fs path_lookup relationship path_lookup.*1 ∅
      (log ++ [IoRglob (text (Path_str (chars sql_dir)))])
    = (Returned full, log') ∧
    g = match root_artifact with
        | Some root =>
            if truthy root_artifact
            then _create_dependency_subgraph full root else full
        | None => full
        end.
Proof.
  intros H. destruct (create_dependency_graph_checked _ _ _ _ _ _ _ H)
    as [Hrel Hroot].
  rewrite (create_dependency_graph_steps _ _ _ _ _ Hrel Hroot) in H.
  unfold bind at 1 in H. unfold _get_path_lookup, bind at 1, do_rglob, lift in H.
  destruct (path_lookup_of _ _ _) as [pl| |] eqn:Hpl; [|done..].
  unfold bind in H.
  destruct (build _ _ _ _ _ _) as [[full| |] log1] eqn:Hbuild; [|done..].
  exists pl, full. split; [done|].
  split; [eapply path_lookup_of_NoDup; [exact Hpl|constructor]|].
  destruct root_artifact as [root|]; [destruct (truthy (Some root))|];
    injection H as <- <-; done.
Qed.

(** ** Input/output of the builder *)

(** X2.  A call that returns has listed the scan directory once and then opened
    the file of each discovered artifact once, in the order of the path
    lookup, whatever the relationship; a file that a later file of the same
    artifact has replaced in the lookup is not opened. *)
Theorem create_dependency_graph_opens_each_file_once (fs : filesystem)
    (sql_dir relationship : string) (root_artifact : option Artifact)
    (log : list io_event) (g : DependencyGraph) (log' : list io_event) :
  create_dependency_graph fs sql_dir relationship root_artifact log
  = (Returned g, log') →
  ∃ path_lookup,
    discovered fs sql_dir path_lookup ∧ NoDup path_lookup.*1 ∧
    log' = log ++ IoRglob (text (Path_str (chars sql_dir)))
                  :: (IoOpen <$> path_lookup.*2) ∧
    Forall (λ p, is_Some (read_text fs p)) path_lookup.*2.
Proof.
  intros (pl & full & Hpl & Hnd & Hbuild & _)%create_dependency_graph_returned.
  exists pl. split; [done|]. split; [done|].
  apply (build_returned_log _ _ _ _ pl.*2) in Hbuild as [-> Hall];
    [|by apply dict_get_entries].
  by rewrite <- app_assoc.
Qed.

Lemma create_dependency_graph_opens_each_file_once_witness :
  create_dependency_graph test_data "tests/.test_data" "parent"
    (Some "master_tables.package") []
  = (Returned {[ "master_tables.package" := ["master_views.customer"] ]},
     test_data_log) ∧
  ∃ path_lookup,
    discovered test_data "tests/.test_data" path_lookup ∧
    NoDup path_lookup.*1 ∧
    test_data_log
    = [] ++ IoRglob (text (Path_str (chars "tests/.test_data")))
            :: (IoOpen <$> path_lookup.*2) ∧
    Forall (λ p, is_Some (read_text test_data p)) path_lookup.*2.
Proof.
  assert (H : create_dependency_graph test_data "tests/.test_data" "parent"
                (Some "master_tables.package") []
              = (Returned {[ "master_tables.package" := ["master_views.customer"] ]},
                 test_data_log)) by (vm_compute; reflexivity).
  split; [exact H|].
  exact (create_dependency_graph_opens_each_file_once _ _ _ _ _ _ _ H).
Defined.

(** X3.  A file that cannot be read ends the call with the error of that file
    and without a graph: the files before it in the path lookup have been
    opened, those after it have not. *)
Theorem create_dependency_graph_unreadable_file (fs : filesystem)
    (sql_dir relationship : string) (root_artifact : option Artifact)
    (log : list io_event) (path_lookup : list (string * string))
    (ok : list string) (p : string) (rest : list string) :
  relationship ∈ ["parent"; "dependency"] →
  (relationship = "parent" → truthy root_artifact = true) →
  discovered fs sql_dir path_lookup →
  path_lookup.*2 = ok ++ p :: rest →
  Forall (λ q, is_Some (read_text fs q)) ok →
  read_text fs p = None →
  create_dependency_graph fs sql_dir relationship root_artifact log
  = (Raised (OSError p),
     log ++ IoRglob (text (Path_str (chars sql_dir)))
         :: (IoOpen <$> ok ++ [p])).
Proof.
  intros Hrel Hroot Hpl Hpaths Hok Hp.
  rewrite (create_dependency_graph_steps _ _ _ _ _ Hrel Hroot).
  unfold bind at 1. unfold _get_path_lookup, bind at 1, do_rglob, lift.
  unfold discovered in Hpl. rewrite Hpl. unfold bind.
  assert (Hnd : NoDup path_lookup.*1)
    by (eapply path_lookup_of_NoDup; [exact Hpl|constructor]).
  pose proof (dict_get_entries path_lookup Hnd) as Hget. rewrite Hpaths in Hget.
  rewrite (build_unreadable fs path_lookup relationship _ ok p rest ∅ _
             Hrel Hget Hok Hp).
  by rewrite <- app_assoc.
Qed.

Lemma create_dependency_graph_unreadable_file_witness :
  create_dependency_graph unreadable_data "tests/.test_data" "dependency"
    None []
  = (Raised (OSError "tests/.test_data/locked/x.sql"),
     [] ++ IoRglob (text (Path_str (chars "tests/.test_data")))
        :: (IoOpen <$>
              ["tests/.test_data/master_views/customer.sql";
               "tests/.test_data/master_views/package.sql";
               "tests/.test_data/master_tables/package.table.sql";
               "tests/.test_data/master_tables/customer.table.sql"]
              ++ ["tests/.test_data/locked/x.sql"])).
Proof.
  apply (create_dependency_graph_unreadable_file unreadable_data
           "tests/.test_data" "dependency" None []
           [("master_views.customer", "tests/.test_data/master_views/customer.sql");
            ("master_views.package", "tests/.test_data/master_views/package.sql");
            ("master_tables.package",
             "tests/.test_data/master_tables/package.table.sql");
            ("master_tables.customer",
             "tests/.test_data/master_tables/customer.table.sql");
            ("locked.x", "tests/.test_data/locked/x.sql")]
           _ _ []).
  - set_solver.
  - done.
  - vm_compute. reflexivity.
  - reflexivity.
  - repeat constructor; vm_compute; by eexists.
  - vm_compute. reflexivity.
Defined.





(** ** Scoping *)

(** X5.  With a root artifact that is not empty, the call in the dependency
    orientation does what the call without a root does, with the same
    input/output and the same errors, and hands the graph to the Subgraph
    Extractor. *)
Theorem create_dependency_graph_scopes_full_graph (fs : filesystem)
    (sql_dir : string) (root : Artifact) (log : list io_event) :
  root ≠ EmptyString →
  create_dependency_graph fs sql_dir "dependency" (Some root) log
  = match create_dependency_graph fs sql_dir "dependency" None log with
    | (Returned full, log') =>
        (Returned (_create_dependency_subgraph full root), log')
    | other => other
    end.
Proof.
  intros Hroot.
  rewrite !create_dependency_graph_steps by (done || set_solver).
  unfold truthy. rewrite bool_decide_eq_false_2 by done. simpl. unfold bind.
  destruct (_get_path_lookup fs sql_dir log) as [[pl| |] log1]; [|done..].
  by destruct (build fs pl "dependency" pl.*1 ∅ log1) as [[g| |] log2].
Qed.

Lemma create_dependency_graph_scopes_full_graph_witness :
  create_dependency_graph test_data "tests/.test_data" "dependency"
    (Some "master_views.customer") []
  = match create_dependency_graph test_data "tests/.test_data" "dependency"
            None [] with
    | (Returned full, log') =>
        (Returned (_create_dependency_subgraph full "master_views.customer"),
         log')
    | other => other
    end.
Proof.
  by apply (create_dependency_graph_scopes_full_graph test_data
              "tests/.test_data" "master_views.customer" []).
Defined.

(** The third scenario of the test suite. *)
Example test_create_dependency_subgraph :
  create_dependency_graph test_data "tests/.test_data" "dependency"
    (Some "master_views.customer") []
  = (Returned {[ "master_views.customer" :=
                   ["master_tables.subscription"; "master_tables.package"];
                 "master_tables.package" := [] ]}, test_data_log).
Proof. vm_compute. reflexivity. Qed.

(** ** The two orientations *)

Lemma values_of_edge (g : DependencyGraph) x y :
  y ∈ values_of g x ↔ edge g x y.
Proof.
  unfold values_of, edge. destruct (g !! x) as [deps|]; simpl.
  - split; [by exists deps|]. by intros (? & [= <-] & ?).
  - split; [by intros ?%elem_of_nil|]. by intros (? & [=] & ?).
Qed.

Lemma foldl_append_to (g : DependencyGraph) deps A d :
  NoDup deps →
  foldl (λ g dependency, append_to g dependency A) g deps !! d
  = if decide (d ∈ deps) then Some (values_of g d ++ [A]) else g !! d.
Proof.
  intros Hnd. revert g.
  induction Hnd as [|x deps Hx _ IH]; intros g; cbn [foldl].
  - case_decide as Hd; [by apply elem_of_nil in Hd|done].
  - rewrite IH. unfold append_to, values_of.
    destruct (decide (d = x)) as [->|Hne].
    + rewrite decide_False by done. rewrite decide_True by left.
      by rewrite lookup_insert_eq.
    + rewrite lookup_insert_ne by done.
      destruct (decide (d ∈ deps)) as [Hd|Hd].
      * rewrite decide_True; [done|by right].
      * rewrite decide_False; [done|]. by intros [?|?]%elem_of_cons.
Qed.

Lemma get_dependencies_NoDup sql : NoDup (_get_dependencies sql).
Proof. unfold _get_dependencies. apply NoDup_elements. Qed.

Lemma build_parent fs path_lookup artifacts g0 log g log' d :
  build fs path_lookup "parent" artifacts g0 log = (Returned g, log') →
  g !! d
  = match filter (λ A, d ∈ dependencies_of fs path_lookup A) artifacts with
    | [] => g0 !! d
    | A :: more => Some (values_of g0 d ++ A :: more)
    end.
Proof.
  revert g0 log. induction artifacts as [|A0 more IH]; intros g0 log; simpl.
  - by intros [= -> ->].
  - unfold bind, lift, do_read.
    destruct (dict_get A0 path_lookup) as [path|] eqn:Hpath; [|done].
    destruct (read_text fs path) as [sql|] eqn:Hsql; [|done].
    unfold _create_dependency_graph_helper. rewrite decide_True by done.
    intros ->%IH. rewrite filter_cons.
    assert (Hdeps : dependencies_of fs path_lookup A0 = _get_dependencies sql)
      by (unfold dependencies_of; by rewrite Hpath, Hsql).
    rewrite Hdeps. unfold values_of at 1.
    rewrite (foldl_append_to _ _ _ _ (get_dependencies_NoDup sql)).
    destruct (decide (d ∈ _get_dependencies sql)) as [Hd|Hd]; simpl.
    + destruct (filter _ more) as [|A1 l]; [done|].
      by rewrite <- app_assoc.
    + done.
Qed.

Lemma build_returns fs path_lookup relationship artifacts paths g0 log :
  relationship ∈ ["parent"; "dependency"] →
  Forall2 (λ A p, dict_get A path_lookup = Some p) artifacts paths →
  Forall (λ p, is_Some (read_text fs p)) paths →
  ∃ g, build fs path_lookup relationship artifacts g0 log
       = (Returned g, log ++ (IoOpen <$> paths)).
Proof.
  intros Hrel Hpaths. revert g0 log.
  induction Hpaths as [|A p artifacts paths HA _ IH]; intros g0 log Hread; simpl.
  - exists g0. by rewrite app_nil_r.
  - apply Forall_cons in Hread as [[sql Hsql] Hread].
    unfold bind, lift, do_read. rewrite HA, Hsql.
    destruct (helper_valid A (_get_dependencies sql) g0 relationship Hrel)
      as [g1 ->].
    destruct (IH g1 (log ++ [IoOpen p]) Hread) as [g Hg].
    exists g. by rewrite Hg, <- app_assoc.
Qed.

Lemma get_path_lookup_discovered fs sql_dir path_lookup log :
  discovered fs sql_dir path_lookup →
  _get_path_lookup fs sql_dir log
  = (Returned path_lookup, log ++ [IoRglob (text (Path_str (chars sql_dir)))]).
Proof.
  unfold discovered, _get_path_lookup, bind, do_rglob, lift. by intros ->.
Qed.

Lemma reachable_reverse (g g' : DependencyGraph) x y :
  (∀ a b, edge g a b ↔ edge g' b a) →
  reachable g x y ↔ reachable g' y x.
Proof.
  intros Hrev. unfold reachable. split.
  - induction 1 as [|a b c Hab _ IH]; [done|].
    eapply rtc_r; [exact IH|]. by apply Hrev.
  - induction 1 as [|a b c Hab _ IH]; [done|].
    eapply rtc_r; [exact IH|]. by apply Hrev.
Qed.

(** X6.  What the call returns in the parent orientation is the reversal of
    what it returns, for the same directory, in the dependency orientation
    without a root, cut down to the root: an artifact is listed under a
    key exactly if its file references the key and the root can be reached
    from the key along references; no key has an empty list. *)
Theorem parent_graph_reverses_dependency_graph (fs : filesystem)
    (sql_dir : string) (root : Artifact) (log : list io_event)
    (g : DependencyGraph) (log' : list io_event) :
  create_dependency_graph fs sql_dir "parent" (Some root) log
  = (Returned g, log') →
  ∃ full,
    create_dependency_graph fs sql_dir "dependency" None log
    = (Returned full, log') ∧
    (∀ d A, A ∈ values_of g d ↔ d ∈ values_of full A ∧ reachable full d root) ∧
    ∀ d, g !! d ≠ Some [].
Proof.
  intros Hcall.
  assert (Hroot : root ≠ EmptyString).
  { intros ->. by vm_compute in Hcall. }
  destruct (create_dependency_graph_returned _ _ _ _ _ _ _ Hcall)
    as (pl & gp & Hpl & Hnd & Hbuild & ->).
  unfold truthy. rewrite bool_decide_eq_false_2 by done. simpl.
  pose proof (dict_get_entries pl Hnd) as Hget.
  destruct (build_returned_log _ _ _ _ _ _ _ _ _ Hget Hbuild) as [-> Hread].
  destruct (build_returns fs pl "dependency" pl.*1 pl.*2 ∅
              (log ++ [IoRglob (text (Path_str (chars sql_dir)))])
              ltac:(set_solver) Hget Hread) as [gd Hgd].
  exists gd.
  assert (Hfull : create_dependency_graph fs sql_dir "dependency" None log
                  = (Returned gd,
                     (log ++ [IoRglob (text (Path_str (chars sql_dir)))])
                     ++ (IoOpen <$> pl.*2))).
  { rewrite create_dependency_graph_steps by (done || set_solver).
    unfold bind at 1. rewrite (get_path_lookup_discovered _ _ _ _ Hpl).
    unfold bind. by rewrite Hgd. }
  split; [exact Hfull|].
  destruct (build_dependency _ _ _ _ _ _ _ Hgd) as [Hout Hin].
  assert (Hgp : ∀ d, gp !! d
    = match filter (λ A, d ∈ dependencies_of fs pl A) pl.*1 with
      | [] => None
      | A :: more => Some (A :: more)
      end).
  { intros d. rewrite (build_parent _ _ _ _ _ _ _ d Hbuild).
    by destruct (filter _ _). }
  assert (Hvd : ∀ A, values_of gd A
                     = if decide (A ∈ pl.*1) then dependencies_of fs pl A else []).
  { intros A. unfold values_of. case_decide as HA.
    - destruct (Hin A HA) as (path & sql & Hp & Hs & ->).
      unfold dependencies_of. by rewrite Hp, Hs.
    - by rewrite (Hout A HA), lookup_empty. }
  assert (Hrev : ∀ d A, A ∈ values_of gp d ↔ d ∈ values_of gd A).
  { intros d A. rewrite Hvd. unfold values_of. rewrite Hgp.
    transitivity (A ∈ filter (λ A, d ∈ dependencies_of fs pl A) pl.*1).
    - by destruct (filter _ _).
    - rewrite list_elem_of_filter. case_decide as HA.
      + tauto.
      + split; [tauto|]. by intros ?%elem_of_nil. }
  pose proof (create_dependency_subgraph_result gp root) as Hsub.
  split.
  - intros d A.
    rewrite <- (reachable_reverse gp gd root d)
      by (intros a b; by rewrite <- !values_of_edge).
    rewrite <- Hrev. unfold values_of at 1.
    destruct (_create_dependency_subgraph gp root !! d) as [l|] eqn:Hl; simpl.
    + apply (subgraph_result_lookup _ _ _ _ _ Hsub) in Hl as [Hl Hreach].
      unfold values_of. rewrite Hl. simpl. tauto.
    + split; [by intros ?%elem_of_nil|]. intros [HA Hreach].
      unfold values_of in HA.
      destruct (gp !! d) as [l|] eqn:Hd; [|by apply elem_of_nil in HA].
      assert (_create_dependency_subgraph gp root !! d = Some l)
        by (by apply (subgraph_result_lookup _ _ _ _ _ Hsub)).
      congruence.
  - intros d Hd.
    apply (subgraph_result_lookup _ _ _ _ _ Hsub) in Hd as [Hd _].
    rewrite Hgp in Hd. by destruct (filter _ _).
Qed.

Lemma parent_graph_reverses_dependency_graph_witness :
  ∃ full,
    create_dependency_graph test_data "tests/.test_data" "dependency" None []
    = (Returned full, test_data_log) ∧
    (∀ d A,
       A ∈ values_of {[ "master_tables.package" := ["master_views.customer"] ]} d
       ↔ d ∈ values_of full A ∧ reachable full d "master_tables.package") ∧
    ∀ d, ({[ "master_tables.package" := ["master_views.customer"] ]}
            : DependencyGraph) !! d ≠ Some [].
Proof.
  apply (parent_graph_reverses_dependency_graph test_data "tests/.test_data"
           "master_tables.package" []).
  vm_compute. reflexivity.
Defined.

(** X7.  No list of a returned graph names an artifact twice, in either
    orientation and with or without a root. *)
Theorem create_dependency_graph_values_distinct (fs : filesystem)
    (sql_dir relationship : string) (root_artifact : option Artifact)
    (log : list io_event) (g : DependencyGraph) (log' : list io_event)
    (k : string) (l : list Artifact) :
  create_dependency_graph fs sql_dir relationship root_artifact log
  = (Returned g, log') →
  g !! k = Some l → NoDup l.
Proof.
  intros Hcall Hk.
  assert (Hrel : relationship ∈ ["parent"; "dependency"]).
  { revert Hcall. unfold create_dependency_graph. case_bool_decide; done. }
  destruct (create_dependency_graph_returned _ _ _ _ _ _ _ Hcall)
    as (pl & full & Hpl & Hnd & Hbuild & ->).
  assert (Hfull : full !! k = Some l).
  { destruct root_artifact as [root|]; [|done].
    destruct (truthy (Some root)); [|done].
    by apply (subgraph_result_lookup _ _ _ _ _
                (create_dependency_subgraph_result full root)) in Hk as [? _]. }
  clear Hk Hcall.
  apply elem_of_cons in Hrel as [->|Hrel].
  - rewrite (build_parent _ _ _ _ _ _ _ k Hbuild) in Hfull.
    rewrite lookup_empty in Hfull.
    destruct (filter _ _) as [|A more] eqn:Hf; [done|].
    injection Hfull as <-. unfold values_of. rewrite lookup_empty. simpl.
    rewrite <- Hf. by apply NoDup_filter.
  - apply list_elem_of_singleton in Hrel as ->.
    destruct (build_dependency _ _ _ _ _ _ _ Hbuild) as [Hout Hin].
    destruct (decide (k ∈ pl.*1)) as [Hkin|Hkin].
    + destruct (Hin k Hkin) as (path & sql & _ & _ & Hdeps).
      rewrite Hdeps in Hfull. injection Hfull as <-.
      apply get_dependencies_NoDup.
    + by rewrite (Hout k Hkin), lookup_empty in Hfull.
Qed.

Lemma create_dependency_graph_values_distinct_witness :
  NoDup ["master_tables.subscription"; "master_tables.package"].
Proof.
  apply (create_dependency_graph_values_distinct test_data "tests/.test_data"
           "dependency" (Some "master_views.customer") []
           {[ "master_views.customer" :=
                ["master_tables.subscription"; "master_tables.package"];
              "master_tables.package" := [] ]} test_data_log
           "master_views.customer").
  - vm_compute. reflexivity.
  - vm_compute. reflexivity.
Defined.

(** ** More on the subgraph *)

Lemma subgraph_lookup (g : DependencyGraph) root a deps :
  _create_dependency_subgraph g root !! a = Some deps
  ↔ g !! a = Some deps ∧ reachable g root a.
Proof.
  apply subgraph_result_lookup, create_dependency_subgraph_result.
Qed.

Lemma subgraph_edge (g : DependencyGraph) root a b :
  edge (_create_dependency_subgraph g root) a b
  ↔ edge g a b ∧ reachable g root a.
Proof.
  unfold edge. split.
  - intros (deps & [Hd Hr]%subgraph_lookup & Hb). split; [by exists deps|done].
  - intros [(deps & Hd & Hb) Hr]. exists deps. split; [|done].
    by apply subgraph_lookup.
Qed.

Lemma subgraph_reachable (g : DependencyGraph) root r a :
  reachable g root r →
  reachable (_create_dependency_subgraph g root) r a ↔ reachable g r a.
Proof.
  intros Hr. unfold reachable in *. split.
  - clear Hr. induction 1 as [|x y z [Hxy _]%subgraph_edge _ IH]; [done|].
    by eapply rtc_l.
  - revert a. apply rtc_ind_r; [done|].
    intros y z Hy Hyz IH. eapply rtc_r; [exact IH|].
    apply subgraph_edge. split; [done|].
    unfold reachable. by etrans.
Qed.

(** X8.  A root that is not a key of the graph gives the empty graph, although
    the traversal visits it. *)
Theorem subgraph_of_absent_root (g : DependencyGraph) (root : Artifact) :
  g !! root = None →
  _create_dependency_subgraph g root = ∅ ∧
  ∀ t, traversal_ends g root t → visited t = {[ root ]}.
Proof.
  intros Hroot.
  assert (Honly : ∀ a, reachable g root a → a = root).
  { intros a Ha. apply rtc_inv in Ha as [->|(y & (deps & Hd & _) & _)];
      [done|congruence]. }
  split.
  - apply map_empty. intros a.
    destruct (_ !! a) as [deps|] eqn:Ha; [|done].
    apply subgraph_lookup in Ha as [Ha Hr]. apply Honly in Hr as ->.
    congruence.
  - intros t Ht.
    apply set_eq. intros a.
    rewrite (ends_visited g root t a Ht), elem_of_singleton.
    split; [apply Honly|intros ->; apply rtc_refl].
Qed.

Lemma subgraph_of_absent_root_witness :
  _create_dependency_subgraph
    {[ "master_tables.package" := ["master_views.customer"] ]}
    "master_views.customer" = ∅ ∧
  ∀ t, traversal_ends {[ "master_tables.package" := ["master_views.customer"] ]}
         "master_views.customer" t →
       visited t = {[ "master_views.customer" ]}.
Proof.
  apply (subgraph_of_absent_root
           {[ "master_tables.package" := ["master_views.customer"] ]}
           "master_views.customer").
  vm_compute. reflexivity.
Defined.

(** X9.  Scoping to a root and then to an artifact reachable from it is scoping
    to that artifact at once, and the subgraph of the artifact is part of
    the subgraph of the root. *)
Theorem subgraph_of_reachable_root (g : DependencyGraph) (root r : Artifact) :
  reachable g root r →
  _create_dependency_subgraph (_create_dependency_subgraph g root) r
  = _create_dependency_subgraph g r ∧
  _create_dependency_subgraph g r ⊆ _create_dependency_subgraph g root.
Proof.
  intros Hr. split.
  - apply map_eq. intros a. apply option_eq. intros deps.
    rewrite !subgraph_lookup, (subgraph_reachable g root r a Hr).
    split; [tauto|]. intros [Ha Hra]. split; [|done]. split; [done|].
    unfold reachable in *. by etrans.
  - apply map_subseteq_spec. intros a deps [Ha Hra]%subgraph_lookup.
    apply subgraph_lookup. split; [done|]. unfold reachable in *. by etrans.
Qed.

Lemma subgraph_of_reachable_root_witness :
  _create_dependency_subgraph
    (_create_dependency_subgraph cyclic_graph "a") "b"
  = _create_dependency_subgraph cyclic_graph "b" ∧
  _create_dependency_subgraph cyclic_graph "b"
  ⊆ _create_dependency_subgraph cyclic_graph "a".
Proof.
  apply (subgraph_of_reachable_root cyclic_graph "a" "b").
  apply rtc_once. exists ["b"; "c"]. split; [vm_compute; reflexivity|set_solver].
Defined.

(** X10.  The subgraph is closed: every artifact listed in it has there the
    entry it has in the graph, so the lists of the subgraph lead to no key
    of the graph that the subgraph lacks; and every key of the subgraph
    other than the root is listed under a key of the subgraph. *)
Theorem subgraph_is_closed (g : DependencyGraph) (root : Artifact) :
  let out := _create_dependency_subgraph g root in
  (∀ k deps v, out !! k = Some deps → v ∈ deps → out !! v = g !! v) ∧
  (∀ k, is_Some (out !! k) → k ≠ root →
        ∃ k' deps, out !! k' = Some deps ∧ k ∈ deps).
Proof.
  split.
  - intros k deps v [Hk Hrk]%subgraph_lookup Hv.
    apply option_eq. intros dv. rewrite subgraph_lookup.
    split; [tauto|]. intros Hdv. split; [done|].
    eapply rtc_r; [exact Hrk|]. by exists deps.
  - intros k [dk [_ Hrk]%subgraph_lookup] Hne.
    apply rtc_inv_r in Hrk as [?|(k' & Hk' & deps & Hg & Hin)]; [done|].
    exists k', deps. split; [|done]. by apply subgraph_lookup.
Qed.

(** ** More on the extractor *)

(** The lazy repetition stops at the first place where the rest of the
    pattern matches. *)
Lemma repeat_lazy_first {A} c p s (k : option ascii → list ascii → option A) x :
  repeat_lazy c 0 p s k = Some x →
  ∃ w s', s = w ++ s' ∧ Forall (λ ch, class_matches c ch = true) w ∧
          k (prev_after p w) s' = Some x ∧
          ∀ w1 w2, w = w1 ++ w2 → w2 ≠ [] →
                   k (prev_after p w1) (w2 ++ s') = None.
Proof.
  revert p. induction s as [|ch s IH]; intros p; simpl.
  - destruct (k p []) as [y|] eqn:Hk; [|done]. intros [= <-].
    exists [], []. split; [done|]. split; [constructor|]. split; [done|].
    intros [|? ?] [|? ?]; done.
  - destruct (k p (ch :: s)) as [y|] eqn:Hk.
    + intros [= <-]. exists [], (ch :: s).
      split; [done|]. split; [constructor|]. split; [done|].
      intros [|? ?] [|? ?]; done.
    + destruct (class_matches c ch) eqn:Hc; [|done].
      intros (w & s' & -> & Hw & Hx & Hmin)%IH. exists (ch :: w), s'.
      split; [done|]. split; [by constructor|].
      split; [by rewrite prev_after_cons|].
      intros [|c1 w1] w2 E Hne; simpl in E.
      * subst w2. exact Hk.
      * injection E as <- ->. rewrite prev_after_cons. by apply Hmin.
Qed.

Lemma re_match_seq r1 r2 st k x :
  re_match (RSeq r1 r2) st k = Some x →
  ∃ st1, matches r1 st st1 ∧ re_match r2 st1 k = Some x.
Proof. cbn [re_match]. apply (re_match_sound r1). Qed.

Lemma dependency_regex_group p s st' :
  match_here dependency_regex p s = Some st' →
  Forall (λ c, c ∉ delimiters) (group_text st').
Proof.
  unfold match_here, dependency_regex. intros H.
  apply re_match_seq in H as (st0 & _ & H).
  apply re_match_seq in H as (st1 & _ & H).
  apply re_match_seq in H as (st2 & _ & H).
  apply re_match_seq in H as (st3 & _ & H).
  cbn [re_match] in H.
  apply repeat_lazy_first in H as (w & s' & Hs & _ & Hk & Hmin).
  cbn [rest capture] in Hk. destruct s' as [|q s'']; [done|].
  destruct (class_matches (CIn delimiters) q); [|done].
  injection Hk as <-. unfold group_text. cbn [group capture default].
  rewrite (consumed_app _ _ w) by done. unfold id.
  apply Forall_forall. intros c (w1 & w2 & ->)%list_elem_of_split.
  specialize (Hmin w1 (c :: w2) eq_refl ltac:(done)).
  cbn [rest capture app] in Hmin.
  destruct (class_matches (CIn delimiters) c) eqn:E; [done|].
  by apply bool_decide_eq_false in E.
Qed.

(** X11.  No identifier that is returned holds a backtick or a double quote: the
    identifier ends at the first delimiter after the one that opens it. *)
Theorem get_dependencies_identifier_has_no_delimiter (sql : string)
    (d : Artifact) :
  d ∈ _get_dependencies sql →
  (backtick ∉ chars d) ∧ (dquote ∉ chars d).
Proof.
  unfold _get_dependencies.
  intros (l & -> & Hl)%elem_of_elements%elem_of_list_to_set%list_elem_of_fmap.
  rewrite chars_text.
  apply findall_from_sound in Hl as (pre & s1 & st' & _ & Hm & ->).
  apply dependency_regex_group in Hm. rewrite Forall_forall in Hm.
  split; intros Hin; apply (Hm _ Hin); set_solver.
Qed.

Lemma get_dependencies_identifier_has_no_delimiter_witness :
  (backtick ∉ chars "master_tables.package") ∧
  (dquote ∉ chars "master_tables.package").
Proof.
  apply (get_dependencies_identifier_has_no_delimiter
           ("SELECT * FROM `master_tables.package` JOIN "
            +:+ DQ +:+ "x" +:+ DQ)).
  vm_compute. set_solver.
Defined.

Lemma matches_foldl_alt_intro r rs st st' :
  matches r st st' ∨ (∃ r', r' ∈ rs ∧ matches r' st st') →
  matches (foldl RAlt r rs) st st'.
Proof.
  revert r. induction rs as [|r1 rs IH]; intros r; simpl.
  - intros [H|(r' & Hr' & _)]; [done|by apply elem_of_nil in Hr'].
  - intros [H|(r' & Hr' & H)]; apply IH.
    + left. by left.
    + apply elem_of_cons in Hr' as [->|Hr'].
      * left. by right.
      * right. by exists r'.
Qed.

Lemma matches_alternatives_intro rs r st st' :
  r ∈ rs → matches r st st' → matches (alternatives rs) st st'.
Proof.
  destruct rs as [|r0 rs]; [by intros ?%elem_of_nil|].
  intros [->|Hr]%elem_of_cons Hm; apply matches_foldl_alt_intro;
    [by left|right; by exists r].
Qed.

Lemma matches_word_ignore_case_intro w w' p s g :
  lower <$> w' = lower <$> w →
  matches (word_ignore_case w) (MState p (w' ++ s) g)
          (MState (prev_after p w') s g).
Proof.
  revert w' p. induction w as [|c w IH]; intros [|c' w'] p E; try done.
  rewrite !fmap_cons in E. injection E as Ec Ew.
  cbn [word_ignore_case foldr matches].
  exists (MState (Some c') (w' ++ s) g). split.
  - exists c'. cbn [rest prev group class_matches app].
    split; [done|]. split; [by apply bool_decide_eq_true|done].
  - rewrite prev_after_cons. by apply IH.
Qed.

(** Wherever the text has the shape of a reference the pattern matches. *)
Lemma dependency_regex_complete p s d :
  reference p s d → is_Some (match_here dependency_regex p s).
Proof.
  intros [kw ws q1 q2 post -> Hword Hkw Hne Hws Hq1 Hq2 Hline].
  pose proof (keyword_like_word_ahead kw (ws ++ q1 :: d ++ q2 :: post) Hkw)
    as Hahead.
  destruct Hkw as (k & Hk & Elow).
  unfold match_here.
  apply (re_match_complete _ _
           (MState (Some q2) post (Some d)) Some
           (MState (Some q2) post (Some d))); [|done].
  unfold dependency_regex. cbn [matches].
  exists (start p (kw ++ ws ++ q1 :: d ++ q2 :: post)). split.
  { split; [|done]. unfold at_boundary, start. cbn [prev rest].
    by rewrite Hword, Hahead. }
  exists (MState (prev_after p kw) (ws ++ q1 :: d ++ q2 :: post) None). split.
  { apply (matches_alternatives_intro _ (word_ignore_case (chars k))).
    - apply list_elem_of_fmap. by exists k.
    - by apply matches_word_ignore_case_intro. }
  exists (MState (prev_after (prev_after p kw) ws) (q1 :: d ++ q2 :: post) None).
  split.
  { exists ws. cbn [rest prev group]. split; [done|]. split; [done|].
    split; [|done]. destruct ws; [done|simpl; lia]. }
  exists (MState (Some q1) (d ++ q2 :: post) None). split.
  { exists q1. cbn [rest prev group class_matches].
    split; [done|]. split; [by apply bool_decide_eq_true|done]. }
  exists (MState (prev_after (Some q1) d) (q2 :: post) (Some d)). split.
  { exists (MState (prev_after (Some q1) d) (q2 :: post) None). split.
    - exists d. cbn [rest prev group]. split; [done|].
      split; [|split; [lia|done]].
      apply Forall_forall. intros c Hc. cbn [class_matches].
      apply negb_true_iff, bool_decide_eq_false. by intros ->.
    - unfold capture. cbn [rest prev].
      by rewrite (consumed_app _ _ d). }
  exists q2. cbn [rest prev group class_matches].
  split; [done|]. split; [by apply bool_decide_eq_true|done].
Qed.

(** X12.  The result is empty exactly when the text has nowhere the shape of a
    reference. *)
Theorem get_dependencies_empty_iff_no_reference (sql : string) :
  _get_dependencies sql = [] ↔ ∀ d, ¬ referenced_in (chars sql) d.
Proof.
  unfold _get_dependencies. split.
  - intros Hnil d (pre & s & E & Href).
    apply dependency_regex_complete in Href.
    rewrite <- prev_after_None in Href.
    apply (findall_from_complete _ _ _ _) in Href.
    rewrite <- E in Href. fold (findall dependency_regex (chars sql)) in Href.
    destruct (findall dependency_regex (chars sql)) as [|x l]; [done|].
    assert (Hx : text x ∈ elements
                   (list_to_set (text <$> x :: l) : gset string))
      by (apply elem_of_elements, elem_of_list_to_set; rewrite fmap_cons; left).
    rewrite Hnil in Hx. by apply elem_of_nil in Hx.
  - intros Hno.
    destruct (findall dependency_regex (chars sql)) as [|x l] eqn:E;
      [by rewrite fmap_nil, list_to_set_nil, elements_empty|].
    destruct (Hno x). apply findall_dependency_regex. rewrite E. left.
Qed.

Lemma first_split {A} (P : A → Prop) (a : list A) q b a' q' b' :
  a ++ q :: b = a' ++ q' :: b' →
  Forall (λ c, ¬ P c) a → Forall (λ c, ¬ P c) a' → P q → P q' →
  a = a' ∧ q = q' ∧ b = b'.
Proof.
  revert a'. induction a as [|x a IH]; intros [|x' a'] E Ha Ha' Hq Hq';
    simpl in E.
  - by injection E as -> ->.
  - injection E as -> _. apply Forall_cons in Ha' as [Hx _]. by destruct Hx.
  - injection E as -> _. apply Forall_cons in Ha as [Hx _]. by destruct Hx.
  - injection E as <- E. apply Forall_cons in Ha as [_ Ha].
    apply Forall_cons in Ha' as [_ Ha'].
    by destruct (IH a' E Ha Ha' Hq Hq') as (-> & -> & ->).
Qed.

Lemma keyword_letter_isword c x :
  x ∈ chars "FROMTABLEINJUPD" → lower c = lower x → isword c = true.
Proof.
  intros Hx. vm_compute in Hx.
  repeat (apply elem_of_cons in Hx as [->|Hx]); [..|by apply elem_of_nil in Hx];
    destruct c as [[] [] [] [] [] [] [] []]; vm_compute; congruence.
Qed.

Lemma keyword_like_isword kw :
  keyword_like kw → Forall (λ c, isword c = true) kw.
Proof.
  intros (k & Hk & E). apply Forall_forall. intros c Hc.
  assert (Hl : lower c ∈ lower <$> chars k)
    by (rewrite <- E; apply list_elem_of_fmap; by exists c).
  apply list_elem_of_fmap in Hl as (x & Hx & Hin).
  apply (keyword_letter_isword c x); [|done].
  unfold keywords in Hk.
  repeat (apply elem_of_cons in Hk as [->|Hk]); [..|by apply elem_of_nil in Hk];
    vm_compute in Hin; vm_compute;
    repeat (apply elem_of_cons in Hin as [->|Hin]);
    try (by apply elem_of_nil in Hin); repeat first [by left|right].
Qed.

Lemma isword_not_delimiter c : isword c = true → c ∉ delimiters.
Proof.
  intros Hw Hc. unfold delimiters in Hc.
  repeat (apply elem_of_cons in Hc as [->|Hc]); [..|by apply elem_of_nil in Hc];
    by vm_compute in Hw.
Qed.

Lemma isspace_not_delimiter c : isspace c = true → c ∉ delimiters.
Proof.
  intros Hw Hc. unfold delimiters in Hc.
  repeat (apply elem_of_cons in Hc as [->|Hc]); [..|by apply elem_of_nil in Hc];
    by vm_compute in Hw.
Qed.

Lemma isword_not_space c : isword c = true → isspace c = false.
Proof. destruct c as [[] [] [] [] [] [] [] []]; vm_compute; congruence. Qed.

Lemma reference_prefix_no_delimiter kw ws :
  keyword_like kw → Forall (λ c, isspace c = true) ws →
  Forall (λ c, ¬ c ∈ delimiters) (kw ++ ws).
Proof.
  intros Hkw Hws. apply Forall_app. split.
  - eapply Forall_impl; [by apply keyword_like_isword|].
    intros c. apply isword_not_delimiter.
  - eapply Forall_impl; [exact Hws|]. intros c. apply isspace_not_delimiter.
Qed.

(** At one place of the text at most one identifier without a delimiter
    can be read. *)
Lemma reference_unique p s d d' :
  reference p s d → reference p s d' →
  Forall (λ c, c ∉ delimiters) d → Forall (λ c, c ∉ delimiters) d' →
  d = d'.
Proof.
  intros [kw ws q1 q2 post -> _ Hkw _ Hws Hq1 Hq2 _]
         [kw' ws' q1' q2' post' E _ Hkw' _ Hws' Hq1' Hq2' _] Hd Hd'.
  rewrite !(app_assoc kw), !(app_assoc kw') in E.
  apply (first_split (λ c, c ∈ delimiters)) in E as (_ & _ & E);
    [|by apply reference_prefix_no_delimiter..|done|done].
  by apply (first_split (λ c, c ∈ delimiters)) in E as (-> & _ & _).
Qed.

Lemma keyword_like_last kw :
  keyword_like kw → ∃ kw0 c, kw = kw0 ++ [c] ∧ isspace c = false.
Proof.
  intros Hkw. pose proof (keyword_like_isword kw Hkw) as Hw.
  destruct Hkw as (k & Hk & E).
  induction kw as [|c0 kw0 _] using rev_ind.
  - unfold keywords in Hk.
    repeat (apply elem_of_cons in Hk as [->|Hk]); [..|by apply elem_of_nil in Hk];
      by vm_compute in E.
  - exists kw0, c0. split; [done|]. apply isword_not_space.
    rewrite Forall_forall in Hw. apply Hw. set_solver.
Qed.

Lemma last_split {A} (P : A → Prop) (x w y w' : list A) cx cy :
  (x ++ [cx]) ++ w = (y ++ [cy]) ++ w' →
  Forall (λ c, ¬ P c) w → Forall (λ c, ¬ P c) w' → P cx → P cy →
  x = y ∧ cx = cy ∧ w = w'.
Proof.
  intros E Hw Hw' Hx Hy. apply (f_equal reverse) in E.
  rewrite !reverse_app, !reverse_singleton in E. simpl in E.
  apply (first_split P) in E as (Ew & Ec & Ex);
    [|by apply Forall_reverse..|done|done].
  split; [by apply (inj reverse)|]. split; [done|by apply (inj reverse)].
Qed.

Lemma keyword_no_proper_suffix k k' u :
  k ∈ keywords → k' ∈ keywords →
  lower <$> chars k' = u ++ (lower <$> chars k) → u = [].
Proof.
  intros Hk Hk' E. apply (f_equal reverse) in E. rewrite reverse_app in E.
  assert (Hru : reverse u = []); [|apply (inj reverse); by rewrite Hru].
  revert E. generalize (reverse u). intros ru E.
  unfold keywords in Hk, Hk'.
  repeat (apply elem_of_cons in Hk as [->|Hk]); [..|by apply elem_of_nil in Hk];
    (repeat (apply elem_of_cons in Hk' as [->|Hk']);
       [..|by apply elem_of_nil in Hk']);
    vm_compute in E; congruence.
Qed.

(** A match cannot start inside a stretch without delimiters that ends in
    a reference. *)
Lemma reference_not_before p pre kw ws q1 post d' :
  pre ≠ [] → Forall (λ c, c ∉ delimiters) pre →
  keyword_like kw → Forall (λ c, isspace c = true) ws → q1 ∈ delimiters →
  ¬ reference p (pre ++ kw ++ ws ++ q1 :: post) d'.
Proof.
  intros Hne Hpre Hkw Hws Hq1
    [kw' ws' q1' q2' post' E _ Hkw' _ Hws' Hq1' _ _].
  rewrite (app_assoc kw), (app_assoc pre), (app_assoc kw') in E.
  apply (first_split (λ c, c ∈ delimiters)) in E as (E & _ & _);
    [| |by apply reference_prefix_no_delimiter|done|done]; cycle 1.
  { apply Forall_app. split; [done|by apply reference_prefix_no_delimiter]. }
  destruct (keyword_like_last kw Hkw) as (kw0 & c & -> & Hc).
  destruct (keyword_like_last kw' Hkw') as (kw0' & c' & -> & Hc').
  rewrite (app_assoc pre), (app_assoc pre kw0) in E.
  apply (last_split (λ ch, isspace ch = false)) in E as (E & <- & _);
    [| | |done|done]; cycle 1.
  { eapply Forall_impl; [exact Hws|]. intros ch ->. done. }
  { eapply Forall_impl; [exact Hws'|]. intros ch ->. done. }
  destruct Hkw as (k & Hk & Elow). destruct Hkw' as (k' & Hk' & Elow').
  rewrite <- E, <- app_assoc, fmap_app, Elow in Elow'.
  symmetry in Elow'. apply keyword_no_proper_suffix in Elow'; [|done..].
  apply fmap_nil_inv in Elow'. done.
Qed.

Lemma findall_from_skip r p pre s :
  (∀ pre1 pre2, pre = pre1 ++ pre2 → pre2 ≠ [] →
                match_here r (prev_after p pre1) (pre2 ++ s) = None) →
  findall_from r 0 p (pre ++ s) = findall_from r 0 (prev_after p pre) s.
Proof.
  revert p. induction pre as [|c pre IH]; intros p Hno; [done|].
  cbn [app findall_from].
  assert (H0 : match_here r p (c :: pre ++ s) = None)
    by (by apply (Hno [] (c :: pre))).
  rewrite H0.
  rewrite prev_after_cons. apply IH. intros pre1 pre2 -> Hne.
  rewrite <- (prev_after_cons p). by apply (Hno (c :: pre1) pre2).
Qed.

Lemma findall_from_head r p s st' :
  match_here r p s = Some st' →
  ∃ tail, findall_from r 0 p s = group_text st' :: tail.
Proof. intros H. destruct s; simpl; rewrite H; by eexists. Qed.

(** X13.  A reference is found: when the text up to a keyword holds no
    delimiter, and the keyword is followed by whitespace and an identifier
    between two delimiters, the identifier is returned, whatever the case
    of the keyword, the kind of whitespace, the two delimiters and the
    text that follows. *)
Theorem get_dependencies_finds_reference (pre kw ws : list ascii)
    (q1 : ascii) (d : list ascii) (q2 : ascii) (post : list ascii) :
  Forall (λ c, c ∉ delimiters) pre →
  word_before (last pre) = false →
  keyword_like kw →
  ws ≠ [] → Forall (λ c, isspace c = true) ws →
  q1 ∈ delimiters → q2 ∈ delimiters →
  Forall (λ c, c ∉ delimiters) d → newline ∉ d →
  text d ∈ _get_dependencies (text (pre ++ kw ++ ws ++ q1 :: d ++ q2 :: post)).
Proof.
  intros Hpre Hword Hkw Hne Hws Hq1 Hq2 Hd Hline.
  assert (Href : reference (last pre) (kw ++ ws ++ q1 :: d ++ q2 :: post) d)
    by (by apply (Reference _ _ d kw ws q1 q2 post)).
  destruct (dependency_regex_complete _ _ _ Href) as [st' Hst'].
  assert (Hgroup : group_text st' = d).
  { apply (reference_unique (last pre) (kw ++ ws ++ q1 :: d ++ q2 :: post));
      [by apply dependency_regex_sound|done
      |by apply (dependency_regex_group _ _ _ Hst')|done]. }
  unfold _get_dependencies. rewrite chars_text.
  apply elem_of_elements, elem_of_list_to_set, list_elem_of_fmap.
  exists d. split; [done|]. unfold findall.
  rewrite findall_from_skip.
  - rewrite prev_after_None.
    destruct (findall_from_head _ _ _ _ Hst') as [tail ->].
    rewrite Hgroup. left.
  - intros pre1 pre2 -> Hne2. apply eq_None_not_Some. intros [st2 Hst2].
    apply dependency_regex_sound in Hst2.
    apply Forall_app in Hpre as [_ Hpre2].
    by apply reference_not_before in Hst2.
Qed.

Lemma get_dependencies_finds_reference_witness :
  text (chars "a.b")
  ∈ _get_dependencies
      (text (chars "SELECT * " ++ chars "fRoM" ++ [newline; " "%char]
               ++ backtick :: chars "a.b" ++ dquote :: chars " WHERE x")).
Proof.
  apply (get_dependencies_finds_reference (chars "SELECT * ") (chars "fRoM")
           [newline; " "%char] backtick (chars "a.b") dquote
           (chars " WHERE x")).
  - vm_compute. repeat constructor; set_solver.
  - reflexivity.
  - exists "FROM". split; [set_solver|reflexivity].
  - done.
  - repeat constructor.
  - set_solver.
  - set_solver.
  - vm_compute. repeat constructor; set_solver.
  - vm_compute. set_solver.
Defined.

(** ** More on the resolver *)

Lemma convert_path_child sql_dir artifact_path rel :
  plain_dir sql_dir →
  Path_str (chars artifact_path) = Path_str (chars sql_dir) ++ slash :: rel →
  newline ∉ rel →
  _convert_path_to_artifact sql_dir artifact_path
  = Returned (text (strip_markers rel)).
Proof.
  intros Hplain Hpath Hnl. unfold plain_dir in Hplain.
  apply literal_pattern_plain in Hplain as [rd Hrd].
  unfold _convert_path_to_artifact.
  assert (Hr : ∃ r, path_regex (Path_str (chars sql_dir)) = Some r)
    by (unfold path_regex; rewrite Hrd; by eexists).
  destruct Hr as [r Hr]. rewrite Hr, Hpath.
  destruct (findall_head r _ _ (match_here_child _ r None rel Hr Hnl))
    as [tail ->].
  done.
Qed.

(** X14.  A path of the listing, which lies under the scan directory, resolves to
    what follows the directory: the slashes become dots, and the markers
    [.table] and [.sql] are deleted wherever they stand. *)
Theorem convert_path_under_directory (sql_dir artifact_path : string)
    (rel : list ascii) :
  plain_dir sql_dir →
  Path_str (chars artifact_path) = Path_str (chars sql_dir) ++ slash :: rel →
  newline ∉ rel →
  _convert_path_to_artifact sql_dir artifact_path
  = Returned (text (strip_markers rel)).
Proof. apply convert_path_child. Qed.

Lemma convert_path_under_directory_witness :
  _convert_path_to_artifact "tests/.test_data"
    "tests/.test_data/master_tables/package.table.sql"
  = Returned (text (strip_markers (chars "master_tables/package.table.sql"))).
Proof.
  apply (convert_path_under_directory "tests/.test_data"
           "tests/.test_data/master_tables/package.table.sql"
           (chars "master_tables/package.table.sql")).
  - apply literal_pattern_plain. vm_compute. by eexists.
  - vm_compute. reflexivity.
  - vm_compute. set_solver.
Defined.






(** X16.  For a scan directory whose name holds no pattern syntax but
    dots, no artifact name that the resolver returns holds a slash or a
    line break, whatever the path.  Nothing is said of scan directories
    whose name holds other pattern syntax. *)
Theorem convert_path_artifact_has_no_slash (sql_dir artifact_path : string)
    (a : Artifact) :
  plain_dir sql_dir →
  _convert_path_to_artifact sql_dir artifact_path = Returned a →
  (slash ∉ chars a) ∧ (newline ∉ chars a).
Proof. by intros _ (_ & ? & ?)%convert_path_returned. Qed.

Lemma convert_path_artifact_has_no_slash_witness :
  (slash ∉ chars "master_views.customer") ∧
  (newline ∉ chars "master_views.customer").
Proof.
  apply (convert_path_artifact_has_no_slash "tests/.test_data"
           "tests/.test_data/master_views/customer.sql").
  - apply literal_pattern_plain. vm_compute. by eexists.
  - vm_compute. reflexivity.
Defined.

(** ** The visualisation *)

Import Viz.

Lemma elem_of_unique_artifacts (g : DependencyGraph) a :
  a ∈ _get_unique_artifacts g ↔ is_Some (g !! a) ∨ ∃ k, edge g k a.
Proof.
  unfold _get_unique_artifacts.
  rewrite elem_of_elements, elem_of_union, elem_of_list_to_set, elem_of_dom,
    list_elem_of_join.
  split; intros [H|H]; try (by right); try (by left).
  - right. destruct H as (l & Hal & ([k l'] & -> & Hk)%list_elem_of_fmap).
    apply elem_of_map_to_list in Hk. exists k, l'. by split.
  - left. destruct H as (k & deps & Hk & Ha). exists deps. split; [done|].
    apply list_elem_of_fmap. exists (k, deps). split; [done|].
    by apply elem_of_map_to_list.
Qed.

(** X17.  Every artifact of a graph, key or listed, is gathered once. *)
Theorem get_unique_artifacts_once (g : DependencyGraph) :
  NoDup (_get_unique_artifacts g) ∧
  ∀ a, a ∈ _get_unique_artifacts g ↔ is_Some (g !! a) ∨ ∃ k, edge g k a.
Proof.
  split; [unfold _get_unique_artifacts; apply NoDup_elements
         |apply elem_of_unique_artifacts].
Qed.

(** X18.  Of a subgraph whose root is a key of the graph the artifacts gathered
    are those reachable from the root; of the subgraph of a root that is
    no key nothing is gathered, not the root either. *)
Theorem unique_artifacts_of_subgraph (g : DependencyGraph) (root : Artifact) :
  (is_Some (g !! root) →
   ∀ a, a ∈ _get_unique_artifacts (_create_dependency_subgraph g root)
        ↔ reachable g root a) ∧
  (g !! root = None →
   _get_unique_artifacts (_create_dependency_subgraph g root) = []).
Proof.
  split.
  - intros [deps Hroot] a. rewrite elem_of_unique_artifacts. split.
    + intros [[d [_ Hr]%subgraph_lookup]|[k [Hk Hr]%subgraph_edge]]; [done|].
      by eapply rtc_r.
    + intros Hr. apply rtc_inv_r in Hr as Hcases.
      destruct Hcases as [<-|(k & Hk & Hedge)].
      * left. exists deps. by apply subgraph_lookup.
      * right. exists k. by apply subgraph_edge.
  - intros Hroot.
    assert (Hnil : ∀ a, a ∉ _get_unique_artifacts
                              (_create_dependency_subgraph g root)).
    { intros a. rewrite elem_of_unique_artifacts.
      assert (Honly : ∀ b, reachable g root b → b = root).
      { intros b Hb. apply rtc_inv in Hb as [->|(y & (deps & Hd & _) & _)];
          [done|congruence]. }
      intros [[d [Hd Hr]%subgraph_lookup]|[k [[d [Hd _]] Hr]%subgraph_edge]];
        apply Honly in Hr as ->; congruence. }
    destruct (_get_unique_artifacts _) as [|a l]; [done|].
    destruct (Hnil a). left.
Qed.

Lemma node_ids_edges s l : node_ids (Edge s <$> l) = [].
Proof. by induction l. Qed.

Lemma node_ids_app l1 l2 : node_ids (l1 ++ l2) = node_ids l1 ++ node_ids l2.
Proof. apply omap_app. Qed.

Lemma viz_elements_of_spec re_search (g : DependencyGraph) types root arts elems :
  viz_elements_of re_search g types root arts = Returned elems →
  node_ids elems = arts ∧
  (∀ a l t, Node a l t ∈ elems ↔
     l = a ∧ a ∈ arts ∧ _identify_artifact_type re_search a root types = Some t) ∧
  (∀ s t, Edge s t ∈ elems ↔ s ∈ arts ∧ t ∈ values_of g s).
Proof.
  revert elems. induction arts as [|a0 arts IH]; intros elems; simpl.
  - intros [= <-]. split; [done|].
    split; intros; (split; [by intros ?%elem_of_nil|]).
    + by intros (_ & ?%elem_of_nil & _).
    + by intros [?%elem_of_nil _].
  - destruct (_identify_artifact_type re_search a0 root types) as [t0|] eqn:Ht0;
      [|done].
    destruct (viz_elements_of re_search g types root arts) as [rest| |];
      [|done..].
    intros [= <-]. destruct (IH rest eq_refl) as (Hids & Hnodes & Hedges).
    split; [|split].
    + change (node_ids ([Node a0 a0 t0]
                        ++ (Edge a0 <$> default [] (g !! a0)) ++ rest)
              = a0 :: arts).
      by rewrite !node_ids_app, node_ids_edges, Hids.
    + intros a l t.
      rewrite elem_of_cons, elem_of_app, Hnodes, list_elem_of_fmap,
        elem_of_cons.
      split.
      * intros [[= -> -> ->]|[(? & [=] & _)|(-> & Ha & Ht)]]; [|by auto].
        split; [done|]. split; [by left|done].
      * intros (-> & [->|Ha] & Ht); [|by auto].
        left. congruence.
    + intros s t.
      rewrite elem_of_cons, elem_of_app, Hedges, list_elem_of_fmap,
        elem_of_cons.
      unfold values_of. split.
      * intros [[=]|[(x & [= -> ->] & Hx)|[Hs Ht]]]; [by auto|by auto].
      * intros [[->|Hs] Ht]; [|by auto].
        right. left. by exists t.
Qed.



Lemma first_match_total re_search a types :
  Forall (λ ty, ∀ x, is_Some (re_search (pattern ty) x)) types →
  is_Some (first_match re_search a types).
Proof.
  induction 1 as [|ty types Hty _ IH]; simpl; [by eexists|].
  destruct (Hty a) as [[] ->]; [by eexists|done].
Qed.

(** X20.  When every pattern of the configuration is one that the search
    accepts, the elements are returned, and a node is typed root exactly
    if it is the root or the first type that matches it is named root. *)
Theorem viz_elements_returned (re_search : string → string → option bool)
    (g : DependencyGraph) (types : list ArtifactType) (root : option Artifact) :
  Forall (λ ty, ∀ x, is_Some (re_search (pattern ty) x)) types →
  ∃ elems,
    _create_dependency_viz_elements re_search g types root = Returned elems ∧
    ∀ a, Node a a "root" ∈ elems ↔
         a ∈ _get_unique_artifacts g ∧
         (root = Some a ∨ first_match re_search a types = Some "root").
Proof.
  intros Hvalid.
  assert (Htotal : ∀ arts, ∃ elems,
            viz_elements_of re_search g types root arts = Returned elems).
  { induction arts as [|a arts [rest IH]]; simpl; [by eexists|].
    unfold _identify_artifact_type. rewrite IH. case_bool_decide; [by eexists|].
    destruct (first_match_total re_search a types Hvalid) as [t ->].
    by eexists. }
  destruct (Htotal (_get_unique_artifacts g)) as [elems Helems].
  exists elems. split; [done|]. intros a.
  apply viz_elements_of_spec in Helems as (_ & Hnodes & _).
  rewrite Hnodes. unfold _identify_artifact_type.
  case_bool_decide as Hroot.
  - split; [|by intros [? _]]. intros (_ & Ha & _). split; [done|by left].
  - split.
    + intros (_ & Ha & Ht). split; [done|by right].
    + intros [Ha [?|Ht]]; done.
Qed.

Lemma viz_elements_returned_witness :
  ∃ elems,
    _create_dependency_viz_elements literal_search parents_of_package
      [table_type] (Some "master_tables.package") = Returned elems ∧
    ∀ a, Node a a "root" ∈ elems ↔
         a ∈ _get_unique_artifacts parents_of_package ∧
         (Some "master_tables.package" = Some a ∨
          first_match literal_search a [table_type] = Some "root").
Proof.
  apply (viz_elements_returned literal_search parents_of_package
           [table_type] (Some "master_tables.package")).
  repeat constructor. intros x. by eexists.
Defined.

(** X21.  The type of an artifact: root for the root, without a search; else the
    name of the first type whose pattern is found in the artifact, no
    search being made for the types after it; else other. *)
Theorem identify_artifact_type_first_match
    (re_search : string → string → option bool) (a : string)
    (root : option string) (types : list ArtifactType) (t : string) :
  _identify_artifact_type re_search a root types = Some t →
  (root = Some a ∧ t = "root") ∨
  (root ≠ Some a ∧
   ∃ before ty after,
     types = before ++ ty :: after ∧
     Forall (λ ty', re_search (pattern ty') a = Some false) before ∧
     re_search (pattern ty) a = Some true ∧ t = name ty) ∨
  (root ≠ Some a ∧
   Forall (λ ty, re_search (pattern ty) a = Some false) types ∧ t = "other").
Proof.
  unfold _identify_artifact_type. case_bool_decide as Hroot.
  - intros [= <-]. by left.
  - intros Ht. right.
    assert (H : (∃ before ty after,
                   types = before ++ ty :: after ∧
                   Forall (λ ty', re_search (pattern ty') a = Some false) before ∧
                   re_search (pattern ty) a = Some true ∧ t = name ty) ∨
                (Forall (λ ty, re_search (pattern ty) a = Some false) types ∧
                 t = "other")); [|destruct H; [left|right]; done].
    clear Hroot. induction types as [|ty types IH]; simpl in Ht.
    + injection Ht as <-. by right.
    + destruct (re_search (pattern ty) a) as [[]|] eqn:Hs; [| |done].
      * injection Ht as <-. left. exists [], ty, types. by repeat split.
      * destruct (IH Ht) as [(before & ty' & after & -> & Hb & Hty & ->)|[Hall ->]].
        -- left. exists (ty :: before), ty', after.
           split; [done|]. split; [by constructor|done].
        -- right. split; [by constructor|done].
Qed.

Lemma identify_artifact_type_first_match_witness :
  (Some "master_tables.package" = Some "master_tables.customer"
   ∧ "table" = "root") ∨
  (Some "master_tables.package" ≠ Some "master_tables.customer" ∧
   ∃ before ty after,
     [table_type] = before ++ ty :: after ∧
     Forall (λ ty', literal_search (pattern ty') "master_tables.customer"
                    = Some false) before ∧
     literal_search (pattern ty) "master_tables.customer" = Some true ∧
     "table" = name ty) ∨
  (Some "master_tables.package" ≠ Some "master_tables.customer" ∧
   Forall (λ ty, literal_search (pattern ty) "master_tables.customer"
                 = Some false) [table_type] ∧
   "table" = "other").
Proof.
  apply (identify_artifact_type_first_match literal_search
           "master_tables.customer" (Some "master_tables.package")
           [table_type] "table").
  vm_compute. reflexivity.
Defined.

(** ** The configuration *)

Lemma check_artifact_accepts idx v :
  check_artifact idx v = None ↔ is_Some (as_artifact_type v).
Proof.
  destruct v as [s|items|entries|]; simpl;
    [split; [done|by intros [? ?]]..| |split; [done|by intros [? ?]]].
  unfold required_fields. cbn [check_fields].
  destruct (dict_get "name" entries) as [[?|?|?|]|]; simpl;
    [|split; [done|by intros [? ?]]..].
  destruct (dict_get "pattern" entries) as [[?|?|?|]|]; simpl;
    [|split; [done|by intros [? ?]]..].
  destruct (dict_get "color" entries) as [[?|?|?|]|]; simpl;
    [|split; [done|by intros [? ?]]..].
  destruct (dict_get "shape" entries) as [[?|?|?|]|]; simpl;
    [|split; [done|by intros [? ?]]..].
  split; [by eexists|done].
Qed.

Lemma check_artifacts_app idx good rest :
  Forall (λ v, is_Some (as_artifact_type v)) good →
  check_artifacts idx (good ++ rest) = check_artifacts (idx + length good) rest.
Proof.
  intros Hgood. revert idx.
  induction Hgood as [|v good Hv _ IH]; intros idx; simpl.
  - by rewrite Nat.add_0_r.
  - apply check_artifact_accepts with (idx := idx) in Hv. rewrite Hv, IH.
    f_equal. lia.
Qed.

(** X22.  The validation returns exactly for the configurations whose artifact
    types can each be read as an [ArtifactType]: a list of dictionaries
    with the four fields, each a string. *)
Theorem validate_graph_config_accepts (config : list (string * yaml)) :
  _validate_graph_config config = None ↔
  ∃ items, dict_get "artifact_types" config = Some (YList items) ∧
           Forall (λ v, is_Some (as_artifact_type v)) items.
Proof.
  unfold _validate_graph_config.
  destruct (dict_get "artifact_types" config) as [[s|items|entries|]|];
    [split; [done|by intros (? & [=] & _)]| |split; [done|by intros (? & [=] & _)]..].
  transitivity (Forall (λ v, is_Some (as_artifact_type v)) items).
  - generalize 0. induction items as [|v items IH]; intros idx; simpl.
    + by split; [constructor|].
    + destruct (check_artifact idx v) as [e|] eqn:Hv.
      * split; [done|]. intros [Hwf _]%Forall_cons.
        apply (check_artifact_accepts idx) in Hwf. congruence.
      * rewrite IH. apply check_artifact_accepts in Hv.
        split; [by constructor|by intros [_ ?]%Forall_cons].
  - split; [by exists items|]. by intros (? & [= <-] & ?).
Qed.

(** X23.  The error raised is that of the first artifact type that cannot be
    read, with its index in the list. *)
Theorem validate_graph_config_first_error (config : list (string * yaml))
    (good : list yaml) (bad : yaml) (rest : list yaml) :
  dict_get "artifact_types" config = Some (YList (good ++ bad :: rest)) →
  Forall (λ v, is_Some (as_artifact_type v)) good →
  as_artifact_type bad = None →
  _validate_graph_config config = check_artifact (length good) bad ∧
  is_Some (check_artifact (length good) bad).
Proof.
  intros Hconfig Hgood Hbad. unfold _validate_graph_config. rewrite Hconfig.
  rewrite (check_artifacts_app 0 good _ Hgood). simpl.
  destruct (check_artifact (length good) bad) as [e|] eqn:He.
  - split; [done|by eexists].
  - apply check_artifact_accepts in He as [? ?]. congruence.
Qed.

Lemma validate_graph_config_first_error_witness :
  _validate_graph_config
    [("artifact_types",
      YList ([YDict [("name", YStr "table"); ("pattern", YStr "master_tables");
                     ("color", YStr "#FF0000"); ("shape", YStr "ellipse")]]
             ++ YDict [("name", YStr "view"); ("pattern", YOther);
                       ("shape", YStr "ellipse")] :: []))]
  = Some (TypeError "Field 'pattern' in artifact type at index 1 must be a string.") ∧
  is_Some (check_artifact 1
             (YDict [("name", YStr "view"); ("pattern", YOther);
                     ("shape", YStr "ellipse")])).
Proof.
  apply (validate_graph_config_first_error _
           [YDict [("name", YStr "table"); ("pattern", YStr "master_tables");
                   ("color", YStr "#FF0000"); ("shape", YStr "ellipse")]]
           (YDict [("name", YStr "view"); ("pattern", YOther);
                   ("shape", YStr "ellipse")]) []).
  - reflexivity.
  - repeat constructor. by eexists.
  - reflexivity.
Defined.
